(** * Padlock: the parser of [padlock.py], embedded and verified

    The development follows the source file top to bottom: exceptions, the
    [Symbol] enumeration, the six [Instruction] descriptors, the [AST] class
    with its [push] method, and [parse], the three-state scanner that builds
    the tree through the index path [stack_ptr].

    Python values are modelled as the program has them: a character is its
    code point (an integer), a [str] is a list of characters, the integer
    parser states [idle], [raw], [blank] and the sentinel indices [-1], [-2]
    are integers, and a Python list indexed by a possibly negative integer
    goes through [py_index], which raises [IndexError] out of range. The
    logging is left out: no statement below depends on it. *)

From Stdlib Require Import ZArith List String Ascii Bool Lia.
From stdpp Require Import base tactics option list.

Local Open Scope Z_scope.

(** ** Characters and strings *)

Definition char := Z.
Definition pystr := list char.

(** The code points of an ASCII literal. *)
Definition str (s : string) : pystr :=
  map (fun a => Z.of_nat (nat_of_ascii a)) (list_ascii_of_string s).

(** Python's [str.isspace] on a one-character string: the code points
    CPython classifies as whitespace. *)
Definition isspace (c : char) : bool :=
  ((9 <=? c) && (c <=? 13)) || ((28 <=? c) && (c <=? 32))
  || (c =? 133) || (c =? 160) || (c =? 5760)
  || ((8192 <=? c) && (c <=? 8202))
  || (c =? 8232) || (c =? 8233) || (c =? 8239) || (c =? 8287) || (c =? 12288).

(** ** Exceptions *)

Inductive exn :=
| InvalidSymbol
| InvalidArgumentCount
| UnexpectedEOF
| IndexError
| TypeError
| AttributeError.

Inductive result (A : Type) :=
| Ok (a : A)
| Raise (e : exn).
Arguments Ok {A} a.
Arguments Raise {A} e.

Definition bind {A B} (r : result A) (k : A -> result B) : result B :=
  match r with
  | Ok a => k a
  | Raise e => Raise e
  end.

Notation "'let*' x := r 'in' k" := (bind r (fun x => k))
  (at level 10, x name, r at level 100, k at level 200).

Definition result_map {A B} (f : A -> B) (r : result A) : result B :=
  match r with
  | Ok a => Ok (f a)
  | Raise e => Raise e
  end.

(** ** Python sequence indexing *)

(** [x[i]] on a sequence of length [len]: the position read, or [None] when
    Python raises [IndexError]. *)
Definition py_index (len : nat) (i : Z) : option nat :=
  let j := if i <? 0 then i + Z.of_nat len else i in
  if (0 <=? j) && (j <? Z.of_nat len) then Some (Z.to_nat j) else None.

Definition py_getitem {A} (x : list A) (i : Z) : result A :=
  match py_index (length x) i with
  | Some k => match x !! k with Some a => Ok a | None => Raise IndexError end
  | None => Raise IndexError
  end.

(** [x[i] = v] on a list. *)
Definition py_setitem {A} (x : list A) (i : Z) (v : A) : result (list A) :=
  match py_index (length x) i with
  | Some k => Ok (<[k := v]> x)
  | None => Raise IndexError
  end.

(** [t.index(c)]: the first position of [c], [None] for [ValueError]. *)
Fixpoint py_find (c : char) (t : list char) : option nat :=
  match t with
  | [] => None
  | x :: t' => if c =? x then Some O else option_map S (py_find c t')
  end.

(** [c in t]. *)
Definition py_in (c : char) (t : list char) : bool :=
  existsb (Z.eqb c) t.

(** ** Default emoji symbols *)

Module Symbol.
Inductive t := lock | unlock | key | pen | keylock | penlock.

Definition value (s : t) : char :=
  match s with
  | lock => 0x1F512
  | unlock => 0x1F513
  | key => 0x1F511
  | pen => 0x1F58B
  | keylock => 0x1F510
  | penlock => 0x1F50F
  end.

#[global] Instance eq_dec : EqDecision t.
Proof. solve_decision. Defined.
End Symbol.

(** ** Instructions *)

Module Instruction.
Record t := mk { name : pystr; symbol : Symbol.t; args : Z; processes : Z }.

#[global] Instance eq_dec : EqDecision t.
Proof. solve_decision. Defined.

(** [a == b] on the named tuples. *)
Definition eqb (a b : t) : bool := bool_decide (a = b).
End Instruction.

Definition nil     := Instruction.mk (str "nil")     Symbol.lock    0 0.
Definition split   := Instruction.mk (str "split")   Symbol.unlock  0 2.
Definition decrypt := Instruction.mk (str "decrypt") Symbol.key     2 1.
Definition name    := Instruction.mk (str "name")    Symbol.pen     1 1.
Definition send    := Instruction.mk (str "send")    Symbol.keylock 2 1.
Definition receive := Instruction.mk (str "receive") Symbol.penlock 2 1.
Definition instructions := [nil; split; decrypt; name; send; receive].

(** ** The AST *)

#[local] Set Warnings "-register-all".

(** An element of a branch: an instruction, a name literal, or a nested
    branch (a Python list). *)
Inductive item :=
| Instr (i : Instruction.t)
| Name (s : pystr)
| Branch (b : list item).

(** Induction on an element of the AST through its nested branches. *)
Fixpoint item_nested_ind (P : item -> Prop)
    (HInstr : forall i, P (Instr i)) (HName : forall s, P (Name s))
    (HBranch : forall b, Forall P b -> P (Branch b)) (v : item) : P v :=
  match v with
  | Instr i => HInstr i
  | Name s => HName s
  | Branch b =>
      HBranch b
        ((fix all (l : list item) : Forall P l :=
            match l with
            | [] => @List.Forall_nil _ P
            | x :: l' =>
                @List.Forall_cons _ P x l'
                  (item_nested_ind P HInstr HName HBranch x) (all l')
            end) b)
  end.

(** What indexing can yield once the traversal of [push] has left the
    lists: a named tuple, one of its fields, or a string. *)
Inductive scalar :=
| STuple (i : Instruction.t)
| SStr (s : pystr)
| SInt (z : Z)
| SSym (s : Symbol.t).

Definition scalar_getitem (x : scalar) (i : Z) : result scalar :=
  match x with
  | STuple ins =>
      py_getitem [SStr (Instruction.name ins); SSym (Instruction.symbol ins);
                  SInt (Instruction.args ins); SInt (Instruction.processes ins)] i
  | SStr s => let* c := py_getitem s i in Ok (SStr [c])
  | SInt _ => Raise TypeError
  | SSym _ => Raise TypeError
  end.

(** The exception that ends a traversal continued from a non-list value:
    an indexing error on the way, or the missing [append] at the end. *)
Fixpoint scalar_walk (x : scalar) (indices : list Z) : exn :=
  match indices with
  | [] => AttributeError
  | i :: rest =>
      match scalar_getitem x i with
      | Ok x' => scalar_walk x' rest
      | Raise e => e
      end
  end.

(** [for i in indices: x = x[i]] followed by [x.append(value)], on the list
    [x]; the mutation in place is returned as the rebuilt list. *)
Fixpoint push_list (x : list item) (value : item) (indices : list Z)
  : result (list item) :=
  match indices with
  | [] => Ok (x ++ [value])
  | i :: rest =>
      match py_index (length x) i with
      | None => Raise IndexError
      | Some k =>
          match x !! k with
          | Some (Branch b) =>
              let* b' := push_list b value rest in Ok (<[k := Branch b']> x)
          | Some (Instr ins) => Raise (scalar_walk (STuple ins) rest)
          | Some (Name s) => Raise (scalar_walk (SStr s) rest)
          | None => Raise IndexError
          end
      end
  end.

Module AST.
Record t := mk { instructions : list item }.

Definition init : t := mk [].

Definition push (self : t) (value : item) (indices : list Z) : result t :=
  let* x := push_list (instructions self) value indices in Ok (mk x).
End AST.

(** ** The parser *)

(** Parser states *)
Definition idle  := 0.
Definition raw   := 1.
Definition blank := 2.

(** The local variables of [parse] that live across loop iterations. *)
Record pstate := mkState {
  state : Z;
  ast : AST.t;
  stack_ptr : list Z;
  instruction : Instruction.t;
  name_count : Z;
  name_stack : list char
}.

Definition initial : pstate :=
  {| state := idle; ast := AST.init; stack_ptr := [];
     instruction := nil; name_count := 0; name_stack := [] |}.

(** [while stack_ptr[-1] == -1: stack_ptr.pop()] on the reversed stack (its
    head is [stack_ptr[-1]]): the stack left when the loop exits, or
    [IndexError] once the stack is exhausted. *)
Fixpoint pop_while (rev_stack : list Z) : result (list Z) :=
  match rev_stack with
  | [] => Raise IndexError
  | d :: below => if d =? -1 then pop_while below else Ok (rev (d :: below))
  end.

Section Parse.
Variables (utf8_names ascii_symbols : bool).

Definition lock    : char := if ascii_symbols then 78 else 0x1F512.
Definition unlock  : char := if ascii_symbols then 83 else 0x1F513.
Definition key     : char := if ascii_symbols then 75 else 0x1F511.
Definition pen     : char := if ascii_symbols then 80 else 0x1F58B.
Definition keylock : char := if ascii_symbols then 69 else 0x1F510.
Definition penlock : char := if ascii_symbols then 82 else 0x1F50F.

Definition symbols : list char := [lock; unlock; key; pen; keylock; penlock].

(** The [state == idle] arm once [symbols.index(char)] has returned. *)
Definition step_instruction (st : pstate) (index : nat) : result pstate :=
  match instructions !! index with
  | None => Raise IndexError
  | Some instruction =>
      let* ast1 := AST.push (ast st) (Instr instruction) (stack_ptr st) in
      if Instruction.eqb instruction nil then
        match pop_while (rev (stack_ptr st)) with
        | Raise _ =>
            Ok {| state := blank; ast := ast1; stack_ptr := [];
                  instruction := instruction; name_count := 0;
                  name_stack := name_stack st |}
        | Ok stack =>
            let* stack' := py_setitem stack (-1) (-1) in
            Ok {| state := state st; ast := ast1; stack_ptr := stack';
                  instruction := instruction; name_count := 0;
                  name_stack := name_stack st |}
        end
      else if Instruction.eqb instruction split then
        let* ast2 := AST.push ast1 (Branch []) (stack_ptr st) in
        let* ast3 := AST.push ast2 (Branch []) (stack_ptr st) in
        Ok {| state := state st; ast := ast3;
              stack_ptr := stack_ptr st ++ [-2];
              instruction := instruction; name_count := 0;
              name_stack := name_stack st |}
      else
        Ok {| state := raw; ast := ast1; stack_ptr := stack_ptr st;
              instruction := instruction; name_count := 0;
              name_stack := name_stack st |}
  end.

(** The [state == raw] arm. *)
Definition step_raw (st : pstate) (c : char) : result pstate :=
  if c =? pen then
    let name_count := name_count st + 1 in
    if Instruction.args (instruction st) >? name_count then
      let* ast1 := AST.push (ast st) (Name (name_stack st)) (stack_ptr st) in
      Ok {| state := state st; ast := ast1; stack_ptr := stack_ptr st;
            instruction := instruction st; name_count := name_count;
            name_stack := [] |}
    else if Instruction.args (instruction st) =? name_count then
      let* ast1 := AST.push (ast st) (Name (name_stack st)) (stack_ptr st) in
      Ok {| state := idle; ast := ast1; stack_ptr := stack_ptr st;
            instruction := instruction st; name_count := name_count;
            name_stack := [] |}
    else Raise InvalidArgumentCount
  else if (utf8_names && negb (isspace c)) || py_in c symbols then
    Ok {| state := state st; ast := ast st; stack_ptr := stack_ptr st;
          instruction := instruction st; name_count := name_count st;
          name_stack := name_stack st ++ [c] |}
  else Ok st.

(** One iteration of the loop over the stream. *)
Definition step (st : pstate) (c : char) : result pstate :=
  if state st =? idle then
    match py_find c symbols with
    | Some index => step_instruction st index
    | None => Ok st
    end
  else if state st =? raw then step_raw st c
  else if state st =? blank then
    if py_in c symbols then Raise InvalidSymbol else Ok st
  else Ok st.

(** The whole loop, from the state [st]. *)
Fixpoint run (st : pstate) (stream : list char) : result pstate :=
  match stream with
  | [] => Ok st
  | c :: rest => let* st' := step st c in run st' rest
  end.

Definition parse (stream : list char) : result AST.t :=
  let* st := run initial stream in
  if state st =? idle then Raise UnexpectedEOF
  else if state st =? raw then Raise UnexpectedEOF
  else Ok (ast st).

(** Whether [c] is consumed as a split instruction in the state [st]: an
    [unlock] symbol met in the [idle] state. *)
Definition split_here (st : pstate) (c : char) : nat :=
  if (state st =? idle) && (c =? unlock) then 1%nat else O.

(** The number of stream characters consumed as a split instruction. *)
Fixpoint splits_consumed (st : pstate) (stream : list char) : nat :=
  match stream with
  | [] => O
  | c :: rest =>
      match step st c with
      | Ok st' => (split_here st c + splits_consumed st' rest)%nat
      | Raise _ => split_here st c
      end
  end.
End Parse.

(** ** Properties of a finished AST, as executable checks *)

(** The branches nested in an element, at every depth. *)
Fixpoint item_branches (v : item) : list (list item) :=
  match v with
  | Branch b => b :: concat (map item_branches b)
  | _ => []
  end.

(** The branches nested in the branch [l], at every depth. *)
Definition nested (l : list item) : list (list item) :=
  concat (map item_branches l).

(** Every branch of an AST: the root branch, then the nested ones. *)
Definition all_branches (a : AST.t) : list (list item) :=
  AST.instructions a :: nested (AST.instructions a).

Definition is_instr (i : Instruction.t) (v : item) : bool :=
  match v with
  | Instr j => Instruction.eqb j i
  | _ => false
  end.

(** The instruction nodes equal to [i] in the whole AST. *)
Definition count_instr (i : Instruction.t) (a : AST.t) : nat :=
  list_sum (map (fun b => length (List.filter (is_instr i) b)) (all_branches a)).

(** The places of the branch [b] where two nested branches stand side by
    side. *)
Fixpoint pairs_here (b : list item) : nat :=
  match b with
  | [] => O
  | Branch _ :: rest =>
      ((match rest with Branch _ :: _ => 1 | _ => 0 end) + pairs_here rest)%nat
  | _ :: rest => pairs_here rest
  end.

(** The nested branches of the whole AST. *)
Definition branches (a : AST.t) : nat := length (nested (AST.instructions a)).

(** The sibling branch pairs of the whole AST. *)
Definition sibling_pairs (a : AST.t) : nat :=
  list_sum (map pairs_here (all_branches a)).

(** Every split instruction of the branch [b] is followed in [b] by two
    nested branches and no third one. *)
Fixpoint split_followed (b : list item) : bool :=
  match b with
  | [] => true
  | Instr i :: rest =>
      (if Instruction.eqb i split then
         match rest with
         | Branch _ :: Branch _ :: Branch _ :: _ => false
         | Branch _ :: Branch _ :: _ => true
         | _ => false
         end
       else true) && split_followed rest
  | _ :: rest => split_followed rest
  end.

(** The length of the run of name literals at the head of [l]. *)
Fixpoint leading_names (l : list item) : nat :=
  match l with
  | Name _ :: rest => S (leading_names rest)
  | _ => O
  end.

(** Every instruction node of the branch [b] is followed in [b] by exactly
    [args] name literals. *)
Fixpoint arity_ok (b : list item) : bool :=
  match b with
  | [] => true
  | Instr i :: rest =>
      (Z.of_nat (leading_names rest) =? Instruction.args i) && arity_ok rest
  | _ :: rest => arity_ok rest
  end.

(** The name literals of the branch [b]. *)
Fixpoint names_here (b : list item) : list pystr :=
  match b with
  | [] => []
  | Name s :: rest => s :: names_here rest
  | _ :: rest => names_here rest
  end.

(** The name literals of the whole AST. *)
Definition names_of (a : AST.t) : list pystr :=
  concat (map names_here (all_branches a)).

(** ** Translating between the character sets *)

(** An element with [f] applied to every character of every name literal
    in it. *)
Fixpoint item_map (f : char -> char) (v : item) : item :=
  match v with
  | Instr i => Instr i
  | Name s => Name (map f s)
  | Branch b => Branch (map (item_map f) b)
  end.

Definition AST_map (f : char -> char) (a : AST.t) : AST.t :=
  AST.mk (map (item_map f) (AST.instructions a)).

(** The nesting of branches and the instructions alone: every name literal
    emptied. *)
Definition shape (a : AST.t) : AST.t := AST_map (fun _ => 0) a.

(** [f] sends the character [c], read in the character set [a], to a
    character that resolves in the character set [b] to the same
    instruction, or like [c] to none, and keeps its whitespace class. *)
Definition same_symbol (a b : bool) (f : char -> char) (c : char) : bool :=
  bool_decide (py_find (f c) (symbols b) = py_find c (symbols a))
  && Bool.eqb (isspace (f c)) (isspace c).

(** The symbols of the set [a] written as those of the set [b], every
    other character kept. *)
Definition translate (a b : bool) (c : char) : char :=
  match py_find c (symbols a) with
  | Some k => nth k (symbols b) c
  | None => c
  end.

Definition to_visual : char -> char := translate true false.
Definition to_plain : char -> char := translate false true.

(** The plain and the visual symbols exchanged, every other character
    kept. *)
Definition exchange (c : char) : char :=
  match py_find c (symbols true) with
  | Some k => nth k (symbols false) c
  | None => to_plain c
  end.

(** The parser state with [f] applied to the characters it holds. *)
Definition state_map (f : char -> char) (st : pstate) : pstate :=
  {| state := state st; ast := AST_map f (ast st);
     stack_ptr := stack_ptr st; instruction := instruction st;
     name_count := name_count st; name_stack := map f (name_stack st) |}.

(** ** The tree under construction, seen from the cursor

    An instruction with its name literals is a [group]; a finished branch
    is a [ctree]: groups closed by [nil], or groups closed by [split] and
    its two finished branches. The branch being written sits under a stack
    of [frame]s, innermost first, one for each split that is still open:
    [FFirst] while its first branch is written, [FSecond] once the first
    branch is finished and the second is written. *)

Definition group : Type := Instruction.t * list pystr.

Definition render_group (g : group) : list item :=
  Instr g.1 :: map Name g.2.

Definition render_groups (gs : list group) : list item :=
  concat (map render_group gs).

Inductive ctree :=
| CNil (gs : list group)
| CSplit (gs : list group) (a b : ctree).

Fixpoint render (t : ctree) : list item :=
  match t with
  | CNil gs => render_groups gs ++ [Instr nil]
  | CSplit gs a b =>
      render_groups gs ++ [Instr split; Branch (render a); Branch (render b)]
  end.

Inductive frame :=
| FFirst (gs : list group)
| FSecond (gs : list group) (a : ctree).

(** The parent branch of the branch [l] written under the frame [f]. *)
Definition wrap (f : frame) (l : list item) : list item :=
  match f with
  | FFirst gs => render_groups gs ++ [Instr split; Branch l; Branch []]
  | FSecond gs a =>
      render_groups gs ++ [Instr split; Branch (render a); Branch l]
  end.

(** The root branch, from the branch [l] at the cursor. *)
Fixpoint plug (fs : list frame) (l : list item) : list item :=
  match fs with
  | [] => l
  | f :: fs' => plug fs' (wrap f l)
  end.

Definition dir (f : frame) : Z :=
  match f with
  | FFirst _ => -2
  | FSecond _ _ => -1
  end.

(** The index path of the cursor, outermost index first. *)
Definition path (fs : list frame) : list Z := rev (map dir fs).

(** Closing the finished branch [c]: the finished root, or the frames with
    the cursor moved to the second branch of the innermost open split. *)
Fixpoint close (fs : list frame) (c : ctree) : ctree + list frame :=
  match fs with
  | [] => inl c
  | FSecond gs a :: fs' => close fs' (CSplit gs a c)
  | FFirst gs :: fs' => inr (FSecond gs c :: fs')
  end.

Fixpoint csplits (t : ctree) : nat :=
  match t with
  | CNil _ => O
  | CSplit _ a b => S (csplits a + csplits b)
  end.

Definition fsplits (fs : list frame) : nat :=
  foldr (fun f n => match f with
                    | FFirst _ => S n
                    | FSecond _ a => S (csplits a + n)
                    end) O fs.

Section Invariant.
Variables (utf8_names ascii_symbols : bool).

(** A character that the [raw] state lets into the name buffer. *)
Definition name_char (c : char) : bool :=
  negb (c =? pen ascii_symbols)
  && (utf8_names || py_in c (symbols ascii_symbols)).

Definition group_ok (g : group) : Prop :=
  g.1 ∈ [decrypt; name; send; receive]
  ∧ Instruction.args g.1 = Z.of_nat (length g.2)
  ∧ Forall (Forall (fun c => name_char c = true)) g.2.

Fixpoint ctree_ok (t : ctree) : Prop :=
  match t with
  | CNil gs => Forall group_ok gs
  | CSplit gs a b => Forall group_ok gs ∧ ctree_ok a ∧ ctree_ok b
  end.

Definition frame_ok (f : frame) : Prop :=
  match f with
  | FFirst gs => Forall group_ok gs
  | FSecond gs a => Forall group_ok gs ∧ ctree_ok a
  end.

(** The states of [parse] after [n] split instructions. *)
Inductive Inv (n : nat) : pstate -> Prop :=
| Inv_idle fs gs i k :
    Forall frame_ok fs -> Forall group_ok gs -> fsplits fs = n ->
    Inv n {| state := idle; ast := AST.mk (plug fs (render_groups gs));
             stack_ptr := path fs; instruction := i; name_count := k;
             name_stack := [] |}
| Inv_raw fs gs i ns buf :
    Forall frame_ok fs -> Forall group_ok gs -> fsplits fs = n ->
    i ∈ [decrypt; name; send; receive] ->
    Z.of_nat (length ns) < Instruction.args i ->
    Forall (Forall (fun c => name_char c = true)) ns ->
    Forall (fun c => name_char c = true) buf ->
    Inv n {| state := raw;
             ast := AST.mk (plug fs (render_groups gs
                                     ++ Instr i :: map Name ns));
             stack_ptr := path fs; instruction := i;
             name_count := Z.of_nat (length ns); name_stack := buf |}
| Inv_blank c i k buf :
    ctree_ok c -> csplits c = n ->
    Inv n {| state := blank; ast := AST.mk (render c); stack_ptr := [];
             instruction := i; name_count := k; name_stack := buf |}.
End Invariant.

(** Each indexing step of the traversal of [push] from the list [x] along
    [indices] is in bounds and yields a list; [y] is the list reached. *)
Inductive reaches : list item -> list Z -> list item -> Prop :=
| reaches_here x : reaches x [] x
| reaches_step x i k b rest y :
    py_index (length x) i = Some k ->
    x !! k = Some (Branch b) ->
    reaches b rest y ->
    reaches x (i :: rest) y.

(** The exceptions that are not the program's own. *)
Definition python_error (e : exn) : Prop :=
  e = IndexError \/ e = TypeError \/ e = AttributeError.

(** ** The rendering of an AST

    [AST._parse_line] and [AST.__str__]. The characters written are the
    symbol of the instruction (always the default emoji: [item.symbol.value]),
    the space, the quote and the line feed. [_parse_line] calls itself once
    for each level of nesting, so it needs as many frames of the
    interpreter's stack as the AST has levels, and raises [RecursionError]
    when the interpreter allows fewer. *)

Definition space : char := 32.
Definition quote : char := 39.
Definition newline : char := 10.

(** What [str] gives: the text, or the exception of the interpreter. *)
Inductive rendered :=
| Text (s : pystr)
| RecursionError.

(** [self._parse_line(line, depth=depth)] when the interpreter allows
    [frames] more nested calls, this one counted: the loop over the line,
    the pieces of [out] joined; the call on a nested branch has one frame
    less. *)
Fixpoint _parse_line (frames : nat) (line : list item) (depth : nat)
  : rendered :=
  match frames with
  | O => RecursionError
  | S frames' =>
      (fix loop (l : list item) : rendered :=
         match l with
         | [] => Text []
         | v :: rest =>
             let piece :=
               match v with
               | Instr i => Text [Symbol.value (Instruction.symbol i); space]
               | Name s => Text (quote :: s ++ [quote; space])
               | Branch b =>
                   match _parse_line frames' b (S depth) with
                   | Text t =>
                       Text ((newline :: replicate (2 * (depth + 1)) space)
                             ++ t)
                   | RecursionError => RecursionError
                   end
               end in
             match piece with
             | Text t =>
                 match loop rest with
                 | Text t' => Text (t ++ t')
                 | RecursionError => RecursionError
                 end
             | RecursionError => RecursionError
             end
         end) line
  end.

(** [str(ast)], with [frames] nested calls of [_parse_line] allowed. *)
Definition AST_str (frames : nat) (a : AST.t) : rendered :=
  _parse_line frames (AST.instructions a) O.

(** The levels of nesting of an element: one for a branch, and one more
    for each branch it is nested in. *)
Fixpoint item_levels (v : item) : nat :=
  match v with
  | Branch b => S (list_max (map item_levels b))
  | _ => O
  end.

(** The levels of a line: the line itself, and the levels nested in it. *)
Definition levels (line : list item) : nat :=
  S (list_max (map item_levels line)).

(** The text of an element and of a line at a depth, whatever the frames:
    what [_parse_line] returns when it returns. *)
Fixpoint item_text (depth : nat) (v : item) : pystr :=
  match v with
  | Instr i => [Symbol.value (Instruction.symbol i); space]
  | Name s => quote :: s ++ [quote; space]
  | Branch b =>
      (newline :: replicate (2 * (depth + 1)) space)
      ++ concat (map (item_text (S depth)) b)
  end.

Definition line_text (line : list item) (depth : nat) : pystr :=
  concat (map (item_text depth) line).



(** The line feeds of a text. *)
Definition line_breaks (s : pystr) : nat :=
  length (List.filter (Z.eqb newline) s).

(** ** Further checks of a finished AST *)

(** In the branch [b] nothing follows a nil instruction. *)
Fixpoint nil_last (b : list item) : bool :=
  match b with
  | [] => true
  | Instr i :: rest =>
      (negb (Instruction.eqb i nil)
       || match rest with [] => true | _ => false end) && nil_last rest
  | _ :: rest => nil_last rest
  end.

(** The branch [b] ends with a nil instruction, or with a split
    instruction and its two nested branches. *)
Definition ends (b : list item) : bool :=
  match rev b with
  | Instr i :: _ => Instruction.eqb i nil
  | Branch _ :: Branch _ :: Instr i :: _ => Instruction.eqb i split
  | _ => false
  end.

(** A finished tree without any instruction that takes names. *)
Fixpoint bare (t : ctree) : Prop :=
  match t with
  | CNil gs => gs = []
  | CSplit gs a b => gs = [] ∧ bare a ∧ bare b
  end.

(** ** A program scanned inside a branch of a split

    [outer] is the state [inner] of a scan, seen from one level up: the
    AST of [inner] is the branch of the frame [f] that is being written,
    and the path goes through that branch first. The instruction and the
    counter only count while names are collected. *)
Definition framed (f : frame) (inner outer : pstate) : Prop :=
  state outer = state inner
  ∧ AST.instructions (ast outer) = wrap f (AST.instructions (ast inner))
  ∧ stack_ptr outer = dir f :: stack_ptr inner
  ∧ name_stack outer = name_stack inner
  ∧ (state inner = raw ->
     instruction outer = instruction inner
     ∧ name_count outer = name_count inner).

(** [outer] once the program of [inner] has ended: the cursor is in the
    second branch of the split when the first one was written, and the
    split itself is finished when the second one was. *)
Definition closed_by (f : frame) (inner outer : pstate) : Prop :=
  state outer = match f with FFirst _ => idle | FSecond _ _ => blank end
  ∧ AST.instructions (ast outer) = wrap f (AST.instructions (ast inner))
  ∧ stack_ptr outer = match f with FFirst _ => [-1] | FSecond _ _ => [] end
  ∧ name_stack outer = name_stack inner.

(** ** A program scanned after the start of its branch

    [outer] is the state [inner] of a scan with the elements [pre] already
    in the root branch; the path holds indices from the end only. *)
Definition prefixed (pre : list item) (inner outer : pstate) : Prop :=
  state outer = state inner
  ∧ AST.instructions (ast outer) = pre ++ AST.instructions (ast inner)
  ∧ stack_ptr outer = stack_ptr inner
  ∧ Forall (fun d => d < 0) (stack_ptr inner)
  ∧ name_stack outer = name_stack inner
  ∧ (state inner = raw ->
     instruction outer = instruction inner
     ∧ name_count outer = name_count inner).

(** The characters of a name that end up in the name literal: the test of
    the [raw] state for a character that is not the delimiter. *)
Definition admitted (utf8_names ascii_symbols : bool) (c : char) : bool :=
  (utf8_names && negb (isspace c)) || py_in c (symbols ascii_symbols).

(** The state the scan is left in by closing the finished branch [c]. *)
Definition closed_state (fs : list frame) (c : ctree) : pstate :=
  match close fs c with
  | inl c' => mkState blank (AST.mk (render c')) [] nil 0 []
  | inr fs' => mkState idle (AST.mk (plug fs' [])) (path fs') nil 0 []
  end.

(** ** The characters of the name literals *)

(** If the [raw] state can append [c] to the name buffer, [Q] holds of
    [c]. *)
Definition admits (utf8_names ascii_symbols : bool) (Q : char -> Prop)
    (c : char) : Prop :=
  admitted utf8_names ascii_symbols c = true -> Q c.

(** [Q] holds of every character of the name literals of the AST and of
    the name buffer. *)
Definition names_in (Q : char -> Prop) (st : pstate) : Prop :=
  Forall (Forall Q) (names_of (ast st)) ∧ Forall Q (name_stack st).

(** Two states of the scan used as examples below: after a split symbol,
    and after a decrypt symbol. *)
Definition after_split : pstate :=
  mkState idle (AST.mk [Instr split; Branch []; Branch []]) [-2] split 0 [].

Definition after_decrypt : pstate :=
  mkState raw (AST.mk [Instr decrypt]) [] decrypt 0 [].

(** * Verification *)

(** ** The scenarios of the specification *)

Example scenario1 : parse false true (str "N") = Ok (AST.mk [Instr nil]).
Proof. reflexivity. Qed.

Example scenario2 :
  parse false true (str "SNN")
  = Ok (AST.mk [Instr split; Branch [Instr nil]; Branch [Instr nil]]).
Proof. reflexivity. Qed.

Example scenario3 :
  parse true true (str "PalicePN")
  = Ok (AST.mk [Instr name; Name (str "alice"); Instr nil]).
Proof. reflexivity. Qed.

Example scenario4 :
  parse true true (str "KaPbPN")
  = Ok (AST.mk [Instr decrypt; Name (str "a"); Name (str "b"); Instr nil]).
Proof. reflexivity. Qed.

Example scenario5 : parse false true (str "S") = Raise UnexpectedEOF.
Proof. reflexivity. Qed.

Example scenario6 : parse false true (str "SNNN") = Raise InvalidSymbol.
Proof. reflexivity. Qed.

(** The same with the default symbols; a nested split, with characters
    that are no symbols in between. *)
Example scenario2_visual :
  parse false false [0x1F513; 0x1F512; 0x1F512]
  = Ok (AST.mk [Instr split; Branch [Instr nil]; Branch [Instr nil]]).
Proof. reflexivity. Qed.

Example nested_splits :
  parse false true (str "S S N N , N")
  = Ok (AST.mk [Instr split;
                Branch [Instr split; Branch [Instr nil]; Branch [Instr nil]];
                Branch [Instr nil]]).
Proof. reflexivity. Qed.

(** ** Python indexing from the end of a list *)

Lemma py_index_last {A} (l : list A) (x : A) :
  py_index (length (l ++ [x])) (-1) = Some (length l).
Proof.
  unfold py_index. rewrite length_app. simpl.
  replace (-1 + Z.of_nat (length l + 1)) with (Z.of_nat (length l)) by lia.
  rewrite Nat2Z.id.
  destruct (Z.leb_spec 0 (Z.of_nat (length l))); [|lia].
  destruct (Z.ltb_spec (Z.of_nat (length l)) (Z.of_nat (length l + 1))); [done|lia].
Qed.

Lemma py_index_last_but_one {A} (l : list A) (x y : A) :
  py_index (length (l ++ [x; y])) (-2) = Some (length l).
Proof.
  unfold py_index. rewrite length_app. simpl.
  replace (-2 + Z.of_nat (length l + 2)) with (Z.of_nat (length l)) by lia.
  rewrite Nat2Z.id.
  destruct (Z.leb_spec 0 (Z.of_nat (length l))); [|lia].
  destruct (Z.ltb_spec (Z.of_nat (length l)) (Z.of_nat (length l + 2))); [done|lia].
Qed.

Lemma py_setitem_last {A} (l : list A) (x v : A) :
  py_setitem (l ++ [x]) (-1) v = Ok (l ++ [v]).
Proof.
  unfold py_setitem. rewrite py_index_last.
  rewrite insert_app_r_alt by lia. by rewrite Nat.sub_diag.
Qed.

(** ** Appending at the cursor *)

Lemma push_wrap f l v q :
  push_list (wrap f l) v (dir f :: q)
  = let* l' := push_list l v q in Ok (wrap f l').
Proof.
  destruct f as [gs|gs a]; simpl.
  - change [Instr split; Branch l; Branch []]
      with ([Instr split] ++ [Branch l; Branch []]).
    rewrite app_assoc, py_index_last_but_one.
    rewrite lookup_app_r by lia. rewrite Nat.sub_diag. simpl.
    destruct (push_list l v q) as [l'|e]; simpl; [|done].
    rewrite insert_app_r_alt by lia. rewrite Nat.sub_diag. simpl.
    by rewrite <- app_assoc.
  - change [Instr split; Branch (render a); Branch l]
      with ([Instr split; Branch (render a)] ++ [Branch l]).
    rewrite app_assoc, py_index_last.
    rewrite lookup_app_r by lia. rewrite Nat.sub_diag. simpl.
    destruct (push_list l v q) as [l'|e]; simpl; [|done].
    rewrite insert_app_r_alt by lia. rewrite Nat.sub_diag. simpl.
    by rewrite <- app_assoc.
Qed.

Lemma push_plug_path fs : forall l v q,
  push_list (plug fs l) v (path fs ++ q)
  = let* l' := push_list l v q in Ok (plug fs l').
Proof.
  induction fs as [|f fs IH]; intros l v q.
  - simpl. by destruct (push_list l v q).
  - unfold path. simpl. rewrite <- app_assoc. simpl.
    fold (path fs). rewrite IH, push_wrap.
    by destruct (push_list l v q).
Qed.

Lemma push_plug fs l v :
  push_list (plug fs l) v (path fs) = Ok (plug fs (l ++ [v])).
Proof.
  rewrite <- (app_nil_r (path fs)). by rewrite push_plug_path.
Qed.

Lemma AST_push_plug fs l v :
  AST.push (AST.mk (plug fs l)) v (path fs) = Ok (AST.mk (plug fs (l ++ [v]))).
Proof. unfold AST.push. simpl. by rewrite push_plug. Qed.

Lemma reaches_wrap f l q y :
  reaches l q y -> reaches (wrap f l) (dir f :: q) y.
Proof.
  intros Hr. destruct f as [gs|gs a]; simpl.
  - change [Instr split; Branch l; Branch []]
      with ([Instr split] ++ [Branch l; Branch []]).
    rewrite app_assoc. eapply reaches_step; [apply py_index_last_but_one| |done].
    rewrite lookup_app_r by lia. by rewrite Nat.sub_diag.
  - change [Instr split; Branch (render a); Branch l]
      with ([Instr split; Branch (render a)] ++ [Branch l]).
    rewrite app_assoc. eapply reaches_step; [apply py_index_last| |done].
    rewrite lookup_app_r by lia. by rewrite Nat.sub_diag.
Qed.

Lemma reaches_plug_path fs : forall l q y,
  reaches l q y -> reaches (plug fs l) (path fs ++ q) y.
Proof.
  induction fs as [|f fs IH]; intros l q y Hr; [done|].
  unfold path. simpl. rewrite <- app_assoc. simpl. fold (path fs).
  by apply IH, reaches_wrap.
Qed.

Lemma reaches_plug fs l : reaches (plug fs l) (path fs) l.
Proof.
  rewrite <- (app_nil_r (path fs)). apply reaches_plug_path. constructor.
Qed.

(** Where the traversal stays on lists, the append succeeds. *)
Lemma reaches_push x indices y :
  reaches x indices y ->
  forall v, exists x', push_list x v indices = Ok x'.
Proof.
  induction 1 as [x|x i k b rest y Hi Hk _ IH]; intros v; simpl.
  - by eexists.
  - rewrite Hi, Hk. destruct (IH v) as (b' & ->). by eexists.
Qed.

Lemma path_sentinels fs : Forall (fun d => d = -1 \/ d = -2) (path fs).
Proof.
  unfold path. apply Forall_rev, Forall_map, Forall_forall.
  intros [gs|gs a] _; simpl; auto.
Qed.

(** ** Closing a branch *)

Lemma path_cons f fs : path (f :: fs) = path fs ++ [dir f].
Proof. done. Qed.

Lemma close_spec fs : forall c,
  match close fs c with
  | inl c' =>
      pop_while (map dir fs) = Raise IndexError
      ∧ plug fs (render c) = render c'
      ∧ csplits c' = (fsplits fs + csplits c)%nat
      ∧ path fs = replicate (length fs) (-1)
  | inr fs' =>
      exists keep n,
        pop_while (map dir fs) = Ok (keep ++ [-2])
        ∧ path fs' = keep ++ [-1]
        ∧ plug fs (render c) = plug fs' []
        ∧ fsplits fs' = (fsplits fs + csplits c)%nat
        ∧ path fs = (keep ++ [-2]) ++ replicate n (-1)
  end.
Proof.
  induction fs as [|[gs|gs a] fs IH]; intros c; cbn [close].
  - done.
  - exists (path fs), O. rewrite !path_cons. simpl.
    rewrite app_nil_r. repeat split; lia.
  - specialize (IH (CSplit gs a c)). rewrite path_cons.
    destruct (close fs (CSplit gs a c)) as [c'|fs'].
    + destruct IH as (Hpop & Hplug & Hn & Hpath). repeat split; [done..| |].
      * rewrite Hn. simpl. lia.
      * rewrite Hpath. cbn [length dir]. by rewrite replicate_S_end.
    + destruct IH as (keep & n & Hpop & Hpath' & Hplug & Hn & Hpath).
      exists keep, (S n). repeat split; [done..| |].
      * rewrite Hn. simpl. lia.
      * rewrite Hpath. cbn [dir]. by rewrite replicate_S_end, !app_assoc.
Qed.

(** ** The six symbols *)

Lemma py_in_find c t : py_in c t = bool_decide (is_Some (py_find c t)).
Proof.
  induction t as [|x t IH]; simpl; [done|].
  destruct (c =? x); simpl; [done|]. rewrite IH.
  by destruct (py_find c t).
Qed.

Lemma py_find_symbols a c :
  py_find c (symbols a)
  = if c =? lock a then Some 0%nat
    else if c =? unlock a then Some 1%nat
    else if c =? key a then Some 2%nat
    else if c =? pen a then Some 3%nat
    else if c =? keylock a then Some 4%nat
    else if c =? penlock a then Some 5%nat
    else None.
Proof.
  unfold symbols. simpl.
  repeat (match goal with |- context [?x =? ?y] => destruct (x =? y) end;
          simpl; try done).
Qed.

Ltac symbol_cases a c :=
  unfold lock, unlock, key, pen, keylock, penlock in *;
  destruct a;
  repeat match goal with
    | |- context [c =? ?y] => destruct (Z.eqb_spec c y)
    | H : context [c =? ?y] |- _ => destruct (Z.eqb_spec c y)
    end;
  try lia; try done.

Lemma symbols_unlock a c :
  (c =? unlock a) = bool_decide (py_find c (symbols a) = Some 1%nat).
Proof.
  rewrite py_find_symbols.
  symbol_cases a c; subst; try lia;
    by (rewrite bool_decide_eq_false_2 by done)
    || by (rewrite bool_decide_eq_true_2 by done).
Qed.

Lemma symbols_pen a c :
  (c =? pen a) = bool_decide (py_find c (symbols a) = Some 3%nat).
Proof.
  rewrite py_find_symbols.
  symbol_cases a c; subst; try lia;
    by (rewrite bool_decide_eq_false_2 by done)
    || by (rewrite bool_decide_eq_true_2 by done).
Qed.

Lemma instructions_lookup k :
  instructions !! k
  = match k with
    | 0 => Some nil | 1 => Some split | 2 => Some decrypt
    | 3 => Some name | 4 => Some send | 5 => Some receive
    | _ => None
    end%nat.
Proof. by do 6 (destruct k as [|k]; [done|]). Qed.

Lemma eqb_instruction i j : Instruction.eqb i j = true <-> i = j.
Proof. unfold Instruction.eqb. apply bool_decide_eq_true. Qed.

Lemma render_groups_snoc gs g :
  render_groups (gs ++ [g]) = render_groups gs ++ render_group g.
Proof.
  unfold render_groups. rewrite map_app, concat_app. simpl.
  by rewrite app_nil_r.
Qed.

Lemma takes_names_cases i :
  i ∈ [decrypt; name; send; receive] ->
  i = decrypt \/ i = name \/ i = send \/ i = receive.
Proof. rewrite !elem_of_cons, elem_of_nil. tauto. Qed.

(** ** The branches of a finished tree *)

Lemma list_sum_cons x l : list_sum (x :: l) = (x + list_sum l)%nat.
Proof. done. Qed.

Lemma nested_app x y : nested (x ++ y) = nested x ++ nested y.
Proof. unfold nested. by rewrite map_app, concat_app. Qed.

Lemma nested_names ns : nested (map Name ns) = [].
Proof. by induction ns. Qed.

Lemma nested_groups gs : nested (render_groups gs) = [].
Proof.
  induction gs as [|[i ns] gs IH]; [done|].
  change (render_groups ((i, ns) :: gs))
    with ((Instr i :: map Name ns) ++ render_groups gs).
  rewrite nested_app, IH, app_nil_r.
  change (nested (Instr i :: map Name ns)) with (nested (map Name ns)).
  apply nested_names.
Qed.

Lemma nested_render c :
  nested (render c)
  = match c with
    | CNil _ => []
    | CSplit _ a b =>
        (render a :: nested (render a)) ++ (render b :: nested (render b))
    end.
Proof.
  destruct c as [gs|gs a b]; simpl; rewrite nested_app, nested_groups; simpl.
  - done.
  - unfold nested. simpl. by rewrite app_nil_r.
Qed.

Lemma leading_names_app ns rest :
  leading_names (map Name ns ++ rest) = (length ns + leading_names rest)%nat.
Proof. induction ns as [|s ns IH]; simpl; [done|]. by rewrite IH. Qed.

Lemma leading_names_groups gs rest :
  leading_names rest = O -> leading_names (render_groups gs ++ rest) = O.
Proof. by destruct gs. Qed.

Lemma arity_ok_names ns rest :
  arity_ok (map Name ns ++ rest) = arity_ok rest.
Proof. by induction ns. Qed.

Lemma split_followed_names ns rest :
  split_followed (map Name ns ++ rest) = split_followed rest.
Proof. by induction ns. Qed.

Lemma pairs_here_names ns rest :
  pairs_here (map Name ns ++ rest) = pairs_here rest.
Proof. by induction ns. Qed.

Lemma filter_instr_names i ns rest :
  List.filter (is_instr i) (map Name ns ++ rest) = List.filter (is_instr i) rest.
Proof. by induction ns. Qed.

Lemma names_here_names ns rest :
  names_here (map Name ns ++ rest) = ns ++ names_here rest.
Proof. induction ns as [|s ns IH]; simpl; [done|]. by rewrite IH. Qed.

(** ** The invariant of the scan *)

Ltac fields := cbn [state ast stack_ptr instruction name_count name_stack] in *.

Section Correct.
Variables (utf8_names ascii_symbols : bool).

#[local] Abbreviation step := (step utf8_names ascii_symbols).
#[local] Abbreviation run := (run utf8_names ascii_symbols).
#[local] Abbreviation parse := (parse utf8_names ascii_symbols).
#[local] Abbreviation Inv := (Inv utf8_names ascii_symbols).
#[local] Abbreviation group_ok := (group_ok utf8_names ascii_symbols).
#[local] Abbreviation frame_ok := (frame_ok utf8_names ascii_symbols).
#[local] Abbreviation ctree_ok := (ctree_ok utf8_names ascii_symbols).
#[local] Abbreviation name_char := (name_char utf8_names ascii_symbols).

Lemma Inv_idle_eq n fs gs a p i k :
  Forall frame_ok fs -> Forall group_ok gs -> fsplits fs = n ->
  a = AST.mk (plug fs (render_groups gs)) -> p = path fs ->
  Inv n (mkState idle a p i k []).
Proof. intros ? ? ? -> ->. by constructor. Qed.

Lemma Inv_raw_eq n fs gs a p i k ns buf :
  Forall frame_ok fs -> Forall group_ok gs -> fsplits fs = n ->
  i ∈ [decrypt; name; send; receive] ->
  Z.of_nat (length ns) < Instruction.args i ->
  Forall (Forall (fun c => name_char c = true)) ns ->
  Forall (fun c => name_char c = true) buf ->
  a = AST.mk (plug fs (render_groups gs ++ Instr i :: map Name ns)) ->
  p = path fs -> k = Z.of_nat (length ns) ->
  Inv n (mkState raw a p i k buf).
Proof. intros ? ? ? ? ? ? ? -> -> ->. by constructor. Qed.

Lemma Inv_initial : Inv 0 initial.
Proof. by apply (Inv_idle_eq 0 [] []). Qed.

Lemma close_ok fs : forall c,
  Forall frame_ok fs -> ctree_ok c ->
  match close fs c with
  | inl c' => ctree_ok c'
  | inr fs' => Forall frame_ok fs'
  end.
Proof.
  induction fs as [|[gs|gs a] fs IH]; intros c Hfs Hc; simpl.
  - done.
  - apply Forall_cons in Hfs as [Hgs Hfs']. constructor; [|done]. by split.
  - apply Forall_cons in Hfs as [[Hgs Ha] Hfs']. apply IH; [done|].
    by repeat split.
Qed.

(** Entering [raw] after one of the four instructions that take names. *)
Lemma step_instruction_names n fs gs i0 k0 index i :
  Forall frame_ok fs -> Forall group_ok gs -> fsplits fs = n ->
  instructions !! index = Some i ->
  i ∈ [decrypt; name; send; receive] ->
  exists st',
    step_instruction
      (mkState idle (AST.mk (plug fs (render_groups gs))) (path fs) i0 k0 [])
      index = Ok st'
    ∧ Inv n st'.
Proof.
  intros Hfs Hgs Hn Hi Hin. unfold step_instruction. rewrite Hi. fields.
  rewrite AST_push_plug. simpl.
  assert (Instruction.eqb i nil = false ∧ Instruction.eqb i split = false
          ∧ 0 < Instruction.args i) as (-> & -> & Hargs).
  { destruct (takes_names_cases _ Hin) as [-> | [-> | [-> | ->]]]; by vm_compute. }
  eexists; split; [done|].
  by apply (Inv_raw_eq n fs gs _ _ i 0 [] []).
Qed.

(** A split: the three appends, then the cursor enters the first of the
    two new branches. *)
Lemma step_instruction_split n fs gs i0 k0 :
  Forall frame_ok fs -> Forall group_ok gs -> fsplits fs = n ->
  exists st',
    step_instruction
      (mkState idle (AST.mk (plug fs (render_groups gs))) (path fs) i0 k0 [])
      1 = Ok st'
    ∧ Inv (S n) st'.
Proof.
  intros Hfs Hgs Hn. unfold step_instruction.
  rewrite instructions_lookup. fields.
  rewrite AST_push_plug. cbn [bind].
  replace (Instruction.eqb split nil) with false by by vm_compute.
  replace (Instruction.eqb split split) with true by by vm_compute.
  do 2 (rewrite AST_push_plug; cbn [bind]).
  eexists; split; [done|].
  apply (Inv_idle_eq (S n) (FFirst gs :: fs) []); try done.
  - by constructor.
  - simpl. by rewrite Hn.
  - simpl. by rewrite <- !app_assoc.
Qed.

(** The terminator: the append, then the escape from the finished
    branches. *)
Lemma step_instruction_nil n fs gs i0 k0 :
  Forall frame_ok fs -> Forall group_ok gs -> fsplits fs = n ->
  exists st',
    step_instruction
      (mkState idle (AST.mk (plug fs (render_groups gs))) (path fs) i0 k0 [])
      0 = Ok st'
    ∧ Inv n st'.
Proof.
  intros Hfs Hgs Hn. unfold step_instruction.
  rewrite instructions_lookup. fields.
  rewrite AST_push_plug. cbn [bind].
  replace (Instruction.eqb nil nil) with true by by vm_compute.
  unfold path at 1. rewrite rev_involutive.
  pose proof (close_spec fs (CNil gs)) as Hclose.
  pose proof (close_ok fs (CNil gs) Hfs Hgs) as Hok.
  destruct (close fs (CNil gs)) as [c'|fs'].
  - destruct Hclose as (-> & Hplug & Hc & _).
    eexists; split; [done|]. simpl in Hplug. rewrite Hplug.
    constructor; [done|]. rewrite Hc. simpl. lia.
  - destruct Hclose as (keep & m & -> & Hpath & Hplug & Hc & _).
    rewrite py_setitem_last. cbn [bind].
    eexists; split; [done|]. simpl in Hplug. rewrite Hplug.
    apply (Inv_idle_eq n fs' []); try done.
    rewrite Hc. simpl. lia.
Qed.

(** A delimiter in the [raw] state. *)
Lemma step_raw_pen n fs gs i ns buf :
  Forall frame_ok fs -> Forall group_ok gs -> fsplits fs = n ->
  i ∈ [decrypt; name; send; receive] ->
  Z.of_nat (length ns) < Instruction.args i ->
  Forall (Forall (fun c => name_char c = true)) ns ->
  Forall (fun c => name_char c = true) buf ->
  exists st',
    step_raw utf8_names ascii_symbols
      (mkState raw
         (AST.mk (plug fs (render_groups gs ++ Instr i :: map Name ns)))
         (path fs) i (Z.of_nat (length ns)) buf)
      (pen ascii_symbols) = Ok st'
    ∧ Inv n st'.
Proof.
  intros Hfs Hgs Hn Hi Hlen Hns Hbuf. unfold step_raw.
  rewrite Z.eqb_refl. fields. rewrite AST_push_plug. cbn [bind].
  assert (Forall (Forall (fun c => name_char c = true)) (ns ++ [buf])) as Hns'.
  { apply Forall_app. split; [done|]. by constructor. }
  assert (Z.of_nat (length ns) + 1 = Z.of_nat (length (ns ++ [buf]))) as Hk.
  { rewrite length_app. simpl. lia. }
  assert ((render_groups gs ++ Instr i :: map Name ns) ++ [Name buf]
          = render_groups gs ++ Instr i :: map Name (ns ++ [buf])) as Hast.
  { rewrite <- app_assoc. simpl. by rewrite map_app. }
  destruct (Z.gtb_spec (Instruction.args i) (Z.of_nat (length ns) + 1)).
  - eexists; split; [done|].
    apply (Inv_raw_eq n fs gs _ _ i _ (ns ++ [buf]) []); try done.
    + lia.
    + by rewrite Hast.
  - destruct (Z.eqb_spec (Instruction.args i) (Z.of_nat (length ns) + 1));
      [|lia].
    eexists; split; [done|].
    apply (Inv_idle_eq n fs (gs ++ [(i, ns ++ [buf])])); try done.
    + apply Forall_app. split; [done|]. constructor; [|done].
      repeat split; cbn [fst snd]; [done| |done].
      rewrite length_app. simpl. lia.
    + by rewrite Hast, render_groups_snoc.
Qed.

(** The scan keeps the invariant, counts the split instructions, and can
    only stop on a symbol met after the end of the program. *)
Lemma step_Inv n st c :
  Inv n st ->
  match step st c with
  | Ok st' =>
      Inv (n + split_here ascii_symbols st c)%nat st'
  | Raise e =>
      e = InvalidSymbol ∧ state st = blank
      ∧ py_in c (symbols ascii_symbols) = true
  end.
Proof.
  intros [fs gs i k Hfs Hgs Hn|fs gs i ns buf Hfs Hgs Hn Hi Hlen Hns Hbuf
         |t i k buf Ht Hn]; unfold step, split_here; fields.
  - change (idle =? idle) with true. cbn [andb].
    rewrite symbols_unlock, py_find_symbols.
    destruct (c =? lock ascii_symbols).
    { destruct (step_instruction_nil n fs gs i k) as (st' & -> & H); try done.
      by rewrite Nat.add_0_r. }
    destruct (c =? unlock ascii_symbols).
    { destruct (step_instruction_split n fs gs i k) as (st' & -> & H);
        try done.
      by rewrite Nat.add_1_r. }
    destruct (c =? key ascii_symbols).
    { destruct (step_instruction_names n fs gs i k 2%nat decrypt)
        as (st' & -> & H); try done.
      - rewrite !elem_of_cons; tauto.
      - by rewrite Nat.add_0_r. }
    destruct (c =? pen ascii_symbols).
    { destruct (step_instruction_names n fs gs i k 3%nat name)
        as (st' & -> & H); try done.
      - rewrite !elem_of_cons; tauto.
      - by rewrite Nat.add_0_r. }
    destruct (c =? keylock ascii_symbols).
    { destruct (step_instruction_names n fs gs i k 4%nat send)
        as (st' & -> & H); try done.
      - rewrite !elem_of_cons; tauto.
      - by rewrite Nat.add_0_r. }
    destruct (c =? penlock ascii_symbols).
    { destruct (step_instruction_names n fs gs i k 5%nat receive)
        as (st' & -> & H); try done.
      - rewrite !elem_of_cons; tauto.
      - by rewrite Nat.add_0_r. }
    rewrite Nat.add_0_r. by constructor.
  - change (raw =? idle) with false. change (raw =? raw) with true.
    cbn [andb]. rewrite Nat.add_0_r.
    destruct (Z.eqb_spec c (pen ascii_symbols)) as [->|Hc].
    { destruct (step_raw_pen n fs gs i ns buf) as (st' & -> & H); done. }
    unfold step_raw. fields.
    destruct (Z.eqb_spec c (pen ascii_symbols)); [done|].
    destruct ((utf8_names && negb (isspace c))
              || py_in c (symbols ascii_symbols)) eqn:Hcond.
    + constructor; try done. apply Forall_app. split; [done|].
      constructor; [|done]. unfold name_char.
      destruct (Z.eqb_spec c (pen ascii_symbols)); [done|]. simpl.
      destruct utf8_names; [done|]. by simpl in *.
    + by constructor.
  - change (blank =? idle) with false. change (blank =? raw) with false.
    change (blank =? blank) with true. cbn [andb]. rewrite Nat.add_0_r.
    destruct (py_in c (symbols ascii_symbols)); [done|]. by constructor.
Qed.

Lemma run_Inv stream : forall n st,
  Inv n st ->
  match run st stream with
  | Ok st' =>
      Inv (n + splits_consumed utf8_names ascii_symbols st stream)%nat st'
  | Raise e => e = InvalidSymbol
  end.
Proof.
  induction stream as [|c stream IH]; intros n st HI; simpl.
  - by rewrite Nat.add_0_r.
  - pose proof (step_Inv n st c HI) as Hstep.
    destruct (step st c) as [st'|e]; simpl; [|by destruct Hstep].
    specialize (IH _ _ Hstep).
    destruct (run st' stream); [|done].
    by rewrite Nat.add_assoc.
Qed.

(** *** What the groups of a branch contribute to the checks *)

Lemma takes_names_args i :
  i ∈ [decrypt; name; send; receive] ->
  Instruction.eqb i split = false ∧ Instruction.eqb i nil = false
  ∧ 0 < Instruction.args i <= 2.
Proof.
  intros Hi.
  destruct (takes_names_cases _ Hi) as [-> | [-> | [-> | ->]]]; by vm_compute.
Qed.

Lemma render_groups_cons i ns gs rest :
  render_groups ((i, ns) :: gs) ++ rest
  = Instr i :: map Name ns ++ render_groups gs ++ rest.
Proof.
  change (render_groups ((i, ns) :: gs))
    with ((Instr i :: map Name ns) ++ render_groups gs).
  by rewrite <- app_assoc.
Qed.

Lemma split_followed_groups gs rest :
  Forall group_ok gs ->
  split_followed (render_groups gs ++ rest) = split_followed rest.
Proof.
  induction 1 as [|[i ns] gs (Hi & _ & _) _ IH]; [done|].
  rewrite render_groups_cons. cbn [split_followed].
  cbn [fst] in Hi. destruct (takes_names_args _ Hi) as (-> & _ & _).
  by rewrite split_followed_names, IH.
Qed.

Lemma pairs_here_groups gs rest :
  pairs_here (render_groups gs ++ rest) = pairs_here rest.
Proof.
  induction gs as [|[i ns] gs IH]; [done|].
  rewrite render_groups_cons. cbn [pairs_here].
  by rewrite pairs_here_names, IH.
Qed.

Lemma filter_split_groups gs rest :
  Forall group_ok gs ->
  List.filter (is_instr split) (render_groups gs ++ rest)
  = List.filter (is_instr split) rest.
Proof.
  induction 1 as [|[i ns] gs (Hi & _ & _) _ IH]; [done|].
  rewrite render_groups_cons. cbn [List.filter is_instr].
  cbn [fst] in Hi. destruct (takes_names_args _ Hi) as (-> & _ & _).
  by rewrite filter_instr_names, IH.
Qed.

Lemma arity_ok_groups gs rest :
  Forall group_ok gs -> leading_names rest = O ->
  arity_ok (render_groups gs ++ rest) = arity_ok rest.
Proof.
  intros Hgs Hrest.
  induction Hgs as [|[i ns] gs (_ & Hargs & _) _ IH]; [done|].
  rewrite render_groups_cons. cbn [arity_ok].
  rewrite leading_names_app, leading_names_groups, arity_ok_names, IH by done.
  rewrite Nat.add_0_r. cbn [fst snd] in Hargs. rewrite Hargs.
  by rewrite Z.eqb_refl.
Qed.

Lemma names_here_groups gs rest :
  Forall group_ok gs ->
  Forall (Forall (fun c => name_char c = true)) (names_here rest) ->
  Forall (Forall (fun c => name_char c = true))
         (names_here (render_groups gs ++ rest)).
Proof.
  intros Hgs Hrest.
  induction Hgs as [|[i ns] gs (_ & _ & Hns) _ IH]; [done|].
  rewrite render_groups_cons. cbn [names_here].
  rewrite names_here_names. apply Forall_app. by split.
Qed.

(** *** From the nodes of a finished tree to all its branches *)

Lemma branches_Forall (P : list item -> Prop) :
  (forall gs, Forall group_ok gs -> P (render (CNil gs))) ->
  (forall gs a b, Forall group_ok gs -> P (render (CSplit gs a b))) ->
  forall c, ctree_ok c -> Forall P (all_branches (AST.mk (render c))).
Proof.
  intros Hnil Hsplit. unfold all_branches. cbn [AST.instructions].
  induction c as [gs|gs a IHa b IHb]; intros Hc; rewrite nested_render.
  - constructor; [by apply Hnil|done].
  - destruct Hc as (Hgs & Ha & Hb).
    constructor; [by apply Hsplit|]. apply Forall_app. auto.
Qed.

Lemma branches_sum (f : list item -> nat) :
  (forall gs, Forall group_ok gs -> f (render (CNil gs)) = O) ->
  (forall gs a b, Forall group_ok gs -> f (render (CSplit gs a b)) = 1%nat) ->
  forall c, ctree_ok c ->
    list_sum (map f (all_branches (AST.mk (render c)))) = csplits c.
Proof.
  intros Hnil Hsplit. unfold all_branches. cbn [AST.instructions].
  induction c as [gs|gs a IHa b IHb]; intros Hc; rewrite nested_render.
  - cbn [map]. rewrite list_sum_cons, Hnil by done. done.
  - destruct Hc as (Hgs & Ha & Hb).
    cbn [map]. rewrite list_sum_cons, map_app, list_sum_app.
    rewrite Hsplit, IHa, IHb by done. simpl. lia.
Qed.

Lemma branches_count c :
  length (nested (render c)) = (2 * csplits c)%nat.
Proof.
  induction c as [gs|gs a IHa b IHb]; rewrite nested_render; [done|].
  rewrite length_app. simpl. rewrite IHa, IHb. lia.
Qed.

(** *** The outcome of a parse *)

Lemma Inv_blank_inv n st :
  Inv n st -> state st = blank ->
  exists c, ast st = AST.mk (render c) ∧ ctree_ok c ∧ csplits c = n
            ∧ stack_ptr st = [].
Proof. intros [| |c i k buf Hc Hn] Hst; try done. by exists c. Qed.

Lemma Inv_state n st :
  Inv n st -> state st = idle \/ state st = raw \/ state st = blank.
Proof. intros []; auto. Qed.

Lemma parse_Ok stream a :
  parse stream = Ok a ->
  exists c, a = AST.mk (render c) ∧ ctree_ok c
            ∧ csplits c = splits_consumed utf8_names ascii_symbols
                            initial stream.
Proof.
  unfold parse. intros Hp.
  pose proof (run_Inv stream 0 initial Inv_initial) as HI.
  destruct (run initial stream) as [st|e]; [|done]. cbn [bind] in Hp.
  destruct (Inv_state _ _ HI) as [Hst|[Hst|Hst]]; rewrite Hst in Hp;
    try done.
  change (blank =? idle) with false in Hp.
  change (blank =? raw) with false in Hp. injection Hp as <-.
  destruct (Inv_blank_inv _ _ HI Hst) as (c & -> & Hc & Hn & _).
  by exists c.
Qed.

Lemma name_char_spec c :
  name_char c = true ->
  c ≠ pen ascii_symbols
  ∧ (utf8_names = false ->
     c ∈ [lock ascii_symbols; unlock ascii_symbols; key ascii_symbols;
          keylock ascii_symbols; penlock ascii_symbols]).
Proof.
  unfold name_char. intros [Hpen Hin]%andb_prop.
  destruct (Z.eqb_spec c (pen ascii_symbols)) as [|Hne]; [done|].
  split; [done|]. intros ->. cbn [orb] in Hin.
  unfold py_in, symbols in Hin. cbn [existsb] in Hin.
  rewrite !elem_of_cons.
  repeat match type of Hin with
         | (?x =? ?y) || _ = true =>
             destruct (Z.eqb_spec x y); [tauto|cbn [orb] in Hin]
         end.
  done.
Qed.

(** ** The claims on the finished AST *)

(** C4. On every input on which [parse] succeeds, the sibling branch
    pairs of the AST are as many as the split symbols consumed, the nested
    branches twice as many, the split instruction nodes as many, and in
    every branch each split instruction is followed by two nested
    branches and no third one. *)
Theorem parse_sibling_pairs stream a :
  parse stream = Ok a ->
  sibling_pairs a = splits_consumed utf8_names ascii_symbols initial stream
  ∧ branches a
    = (2 * splits_consumed utf8_names ascii_symbols initial stream)%nat
  ∧ count_instr split a
    = splits_consumed utf8_names ascii_symbols initial stream
  ∧ Forall (fun b => split_followed b = true) (all_branches a).
Proof.
  intros (c & -> & Hc & <-)%parse_Ok. repeat split.
  - apply branches_sum; [| |done].
    + intros gs _. cbn [render]. by rewrite pairs_here_groups.
    + intros gs x y _. cbn [render]. by rewrite pairs_here_groups.
  - apply branches_count.
  - apply (branches_sum (fun b => length (List.filter (is_instr split) b)));
      [| |done].
    + intros gs Hgs. cbn [render]. by rewrite filter_split_groups.
    + intros gs x y Hgs. cbn [render]. by rewrite filter_split_groups.
  - apply branches_Forall; [| |done].
    + intros gs Hgs. cbn [render]. by rewrite split_followed_groups.
    + intros gs x y Hgs. cbn [render]. by rewrite split_followed_groups.
Qed.

(** C7. On every input on which [parse] succeeds, every instruction node
    of every branch of the AST is followed in its branch by exactly as
    many name literals as its declared arity: none for nil and split, one
    for name, two for decrypt, send and receive. *)
Theorem parse_arity stream a :
  parse stream = Ok a ->
  Forall (fun b => arity_ok b = true) (all_branches a)
  ∧ map Instruction.args [nil; split; name; decrypt; send; receive]
    = [0; 0; 1; 2; 2; 2].
Proof.
  intros (c & -> & Hc & _)%parse_Ok. split; [|done].
  apply branches_Forall; [| |done].
  - intros gs Hgs. cbn [render]. by rewrite arity_ok_groups.
  - intros gs x y Hgs. cbn [render]. by rewrite arity_ok_groups.
Qed.

(** C10. On every input on which [parse] succeeds, in either name mode,
    no name literal of the AST contains the delimiter, the symbol of the
    name instruction; in the restricted mode every character of every
    name literal is one of the other five symbols. *)
Theorem parse_names_exclude_delimiter stream a :
  parse stream = Ok a ->
  Forall (Forall (fun c =>
                    c ≠ pen ascii_symbols
                    ∧ (utf8_names = false ->
                       c ∈ [lock ascii_symbols; unlock ascii_symbols;
                            key ascii_symbols; keylock ascii_symbols;
                            penlock ascii_symbols])))
         (names_of a).
Proof.
  intros (c & -> & Hc & _)%parse_Ok.
  apply Forall_impl
    with (P := Forall (fun c => name_char c = true)).
  2: { intros s Hs. eapply Forall_impl; [exact Hs|]. apply name_char_spec. }
  unfold names_of. apply Forall_concat, Forall_map.
  apply branches_Forall; [| |done].
  - intros gs Hgs. cbn [render]. by apply names_here_groups.
  - intros gs x y Hgs. cbn [render]. by apply names_here_groups.
Qed.

(** ** The claims on the scan *)

Lemma Inv_idle_inv n st :
  Inv n st -> state st = idle ->
  exists fs gs,
    Forall frame_ok fs ∧ Forall group_ok gs ∧ fsplits fs = n
    ∧ st = mkState idle (AST.mk (plug fs (render_groups gs))) (path fs)
             (instruction st) (name_count st) [].
Proof. intros [fs gs i k| |] Hst; try done. by exists fs, gs. Qed.

Lemma Inv_raw_inv n st :
  Inv n st -> state st = raw ->
  0 <= name_count st < Instruction.args (instruction st).
Proof. intros [|fs gs i ns buf| ] Hst; try done. fields. lia. Qed.

Lemma Inv_path n st :
  Inv n st ->
  Forall (fun d => d = -1 \/ d = -2) (stack_ptr st)
  ∧ exists y, reaches (AST.instructions (ast st)) (stack_ptr st) y.
Proof.
  intros [fs gs i k _ _ _|fs gs i ns buf _ _ _ _ _ _ _|c i k buf _ _]; fields.
  - split; [apply path_sentinels|]. eexists. apply reaches_plug.
  - split; [apply path_sentinels|]. eexists. apply reaches_plug.
  - split; [done|]. eexists. constructor.
Qed.

Lemma reachable pre st :
  run initial pre = Ok st ->
  Inv (splits_consumed utf8_names ascii_symbols initial pre) st.
Proof.
  intros Hrun. pose proof (run_Inv pre 0 initial Inv_initial) as HI.
  by rewrite Hrun in HI.
Qed.

(** C5. After any part of the stream has been scanned, every element of
    [stack_ptr] is [-1] or [-2], the traversal of [push] along it stays in
    bounds and on lists, so an append there succeeds whatever the value,
    and the next iteration raises nothing but [InvalidSymbol]: none of
    its calls of [push] fails. *)
Theorem push_path_valid pre st :
  run initial pre = Ok st ->
  Forall (fun d => d = -1 \/ d = -2) (stack_ptr st)
  ∧ (exists y, reaches (AST.instructions (ast st)) (stack_ptr st) y)
  ∧ (forall v, exists a', AST.push (ast st) v (stack_ptr st) = Ok a')
  ∧ (forall c, (exists st', step st c = Ok st')
               \/ step st c = Raise InvalidSymbol).
Proof.
  intros HI%reachable.
  destruct (Inv_path _ _ HI) as (Hsent & y & Hy).
  split; [done|]. split; [by exists y|]. split.
  - intros v. unfold AST.push.
    destruct (reaches_push _ _ _ Hy v) as (x' & ->). by eexists.
  - intros c. pose proof (step_Inv _ _ c HI) as Hstep.
    destruct (step st c) as [st'|e]; [left; by eexists|].
    right. by destruct Hstep as (-> & _).
Qed.

Lemma py_find_lock : py_find (lock ascii_symbols) (symbols ascii_symbols) = Some O.
Proof. by destruct ascii_symbols. Qed.

Lemma step_nil_eq fs gs i k :
  step (mkState idle (AST.mk (plug fs (render_groups gs))) (path fs) i k [])
       (lock ascii_symbols)
  = Ok (match close fs (CNil gs) with
        | inl _ =>
            mkState blank
              (AST.mk (plug fs (render_groups gs ++ [Instr nil]))) []
              nil 0 []
        | inr fs' =>
            mkState idle
              (AST.mk (plug fs (render_groups gs ++ [Instr nil]))) (path fs')
              nil 0 []
        end).
Proof.
  unfold step. fields. change (idle =? idle) with true.
  rewrite py_find_lock. unfold step_instruction.
  rewrite instructions_lookup. fields.
  rewrite AST_push_plug. cbn [bind].
  replace (Instruction.eqb nil nil) with true by by vm_compute.
  unfold path at 1. rewrite rev_involutive.
  pose proof (close_spec fs (CNil gs)) as Hclose.
  destruct (close fs (CNil gs)) as [c'|fs'].
  - by destruct Hclose as (-> & _).
  - destruct Hclose as (keep & m & -> & -> & _).
    by rewrite py_setitem_last.
Qed.

(** C2. When the terminator is consumed in the [idle] state it is
    appended at the cursor, and then every trailing [-1] of [stack_ptr] is
    removed: if nothing is left the state becomes [blank]; otherwise what
    is left ends in [-2], which is replaced by [-1], and the state stays
    [idle]. *)
Theorem nil_closes_branches pre st :
  run initial pre = Ok st -> state st = idle ->
  exists a' keep n,
    AST.push (ast st) (Instr nil) (stack_ptr st) = Ok a'
    ∧ stack_ptr st = keep ++ replicate n (-1)
    ∧ (keep = []
       ∧ step st (lock ascii_symbols)
         = Ok (mkState blank a' [] nil 0 (name_stack st))
       \/ exists q,
           keep = q ++ [-2]
           ∧ step st (lock ascii_symbols)
             = Ok (mkState idle a' (q ++ [-1]) nil 0 (name_stack st))).
Proof.
  intros HI%reachable Hst.
  destruct (Inv_idle_inv _ _ HI Hst) as (fs & gs & Hfs & Hgs & _ & Heq).
  rewrite Heq. fields. rewrite step_nil_eq, AST_push_plug.
  exists (AST.mk (plug fs (render_groups gs ++ [Instr nil]))).
  pose proof (close_spec fs (CNil gs)) as Hclose.
  destruct (close fs (CNil gs)) as [c'|fs'].
  - destruct Hclose as (_ & _ & _ & Hpath).
    exists [], (length fs). split; [done|]. split; [done|]. by left.
  - destruct Hclose as (keep & m & _ & Hpath' & _ & _ & Hpath).
    exists (keep ++ [-2]), m. split; [done|]. split; [done|].
    right. exists keep. by rewrite Hpath'.
Qed.

Lemma run_app s1 : forall st s2,
  run st (s1 ++ s2) = let* st' := run st s1 in run st' s2.
Proof.
  induction s1 as [|c s1 IH]; intros st s2; simpl; [done|].
  destruct (step st c); simpl; [apply IH|done].
Qed.

Lemma step_raw_other st c :
  state st = raw -> c ≠ pen ascii_symbols ->
  step st c
  = Ok (if (utf8_names && negb (isspace c))
           || py_in c (symbols ascii_symbols)
        then mkState (state st) (ast st) (stack_ptr st) (instruction st)
               (name_count st) (name_stack st ++ [c])
        else st).
Proof.
  intros Hst Hc. unfold step, step_raw. rewrite Hst.
  change (raw =? idle) with false. change (raw =? raw) with true.
  destruct (Z.eqb_spec c (pen ascii_symbols)); [done|].
  by destruct ((utf8_names && negb (isspace c))
               || py_in c (symbols ascii_symbols)).
Qed.

Lemma step_split_idle n st :
  Inv n st -> state st = idle ->
  exists st', step st (unlock ascii_symbols) = Ok st' ∧ state st' = idle.
Proof.
  intros HI Hst.
  destruct (Inv_idle_inv _ _ HI Hst) as (fs & gs & Hfs & Hgs & Hn & Heq).
  rewrite Heq. unfold step. fields. change (idle =? idle) with true.
  assert (py_find (unlock ascii_symbols) (symbols ascii_symbols)
          = Some 1%nat) as -> by by destruct ascii_symbols.
  unfold step_instruction. rewrite instructions_lookup. fields.
  rewrite AST_push_plug. cbn [bind].
  replace (Instruction.eqb split nil) with false by by vm_compute.
  replace (Instruction.eqb split split) with true by by vm_compute.
  do 2 (rewrite AST_push_plug; cbn [bind]).
  by eexists.
Qed.

(** C3. [parse] raises [UnexpectedEOF] exactly when the scan reaches the
    end of the stream in the [idle] or the [raw] state; when it reaches
    the end in the [blank] state, [parse] returns the AST; and a stream
    that ends with a split symbol met before the end of the program, in
    the [idle] or the [raw] state, raises [UnexpectedEOF]. *)
Theorem unexpected_eof stream :
  (parse stream = Raise UnexpectedEOF
   <-> exists st, run initial stream = Ok st
                  ∧ (state st = idle \/ state st = raw))
  ∧ (forall st, run initial stream = Ok st -> state st = blank ->
                parse stream = Ok (ast st))
  ∧ (forall st, run initial stream = Ok st ->
                state st = idle \/ state st = raw ->
                parse (stream ++ [unlock ascii_symbols])
                = Raise UnexpectedEOF).
Proof.
  unfold parse. split; [split|split].
  - intros Hp. pose proof (run_Inv stream 0 initial Inv_initial) as HI.
    destruct (run initial stream) as [st|e]; cbn [bind] in Hp.
    + exists st. split; [done|].
      destruct (Inv_state _ _ HI) as [Hst|[Hst|Hst]]; auto.
      by rewrite Hst in Hp.
    + subst e. done.
  - intros (st & Hrun & Hst). rewrite Hrun. cbn [bind].
    by destruct Hst as [-> | ->].
  - intros st Hrun Hst. rewrite Hrun. cbn [bind]. by rewrite Hst.
  - intros st Hrun Hst. rewrite run_app, Hrun. cbn [bind run].
    destruct Hst as [Hst|Hst].
    + destruct (step_split_idle _ st (reachable _ _ Hrun) Hst)
        as (st' & -> & Hst').
      cbn [bind]. by rewrite Hst'.
    + rewrite step_raw_other; [|done|by destruct ascii_symbols].
      cbn [bind].
      destruct ((utf8_names && negb (isspace (unlock ascii_symbols)))
                || py_in (unlock ascii_symbols) (symbols ascii_symbols));
        fields; by rewrite Hst.
Qed.

(** C8. In the [raw] state a character other than the delimiter is
    appended to the name buffer exactly when (names are unrestricted and
    it is not whitespace) or it is one of the six symbols, and nothing
    else changes; otherwise the whole state is left as it is. *)
Theorem raw_collects st c :
  state st = raw -> c ≠ pen ascii_symbols ->
  step st c
  = Ok (if (utf8_names && negb (isspace c))
           || py_in c (symbols ascii_symbols)
        then mkState (state st) (ast st) (stack_ptr st) (instruction st)
               (name_count st) (name_stack st ++ [c])
        else st).
Proof. apply step_raw_other. Qed.

Lemma step_ignored st c :
  state st = idle \/ state st = blank ->
  py_in c (symbols ascii_symbols) = false ->
  step st c = Ok st.
Proof.
  intros Hst Hc. unfold step.
  destruct Hst as [-> | ->].
  - change (idle =? idle) with true. rewrite py_in_find in Hc.
    destruct (py_find c (symbols ascii_symbols)); [|done].
    by rewrite bool_decide_eq_true_2 in Hc.
  - change (blank =? idle) with false. change (blank =? raw) with false.
    change (blank =? blank) with true. by rewrite Hc.
Qed.

Lemma run_ignored junk : forall st,
  state st = idle \/ state st = blank ->
  Forall (fun c => py_in c (symbols ascii_symbols) = false) junk ->
  run st junk = Ok st.
Proof.
  induction junk as [|c junk IH]; intros st Hst Hjunk; [done|].
  apply Forall_cons in Hjunk as [Hc Hjunk]. simpl.
  rewrite step_ignored by done. by apply IH.
Qed.

(** C9. Characters that are none of the six symbols, inserted at a place
    of the stream where the scan is in the [idle] or the [blank] state,
    are scanned without an error and without any change of the state, and
    [parse] gives the same outcome, with the same AST, as without them. *)
Theorem ignorable_insertion pre junk post st :
  run initial pre = Ok st ->
  state st = idle \/ state st = blank ->
  Forall (fun c => py_in c (symbols ascii_symbols) = false) junk ->
  run initial (pre ++ junk) = Ok st
  ∧ parse (pre ++ junk ++ post) = parse (pre ++ post).
Proof.
  intros Hrun Hst Hjunk. unfold parse.
  rewrite !run_app, Hrun. cbn [bind].
  rewrite run_app, run_ignored by done. done.
Qed.

(** C1, as amended. The [raw] arm raises [InvalidArgumentCount] when the
    incremented counter exceeds the arity, but in the [raw] state the
    counter is always below the arity of the instruction, so [parse]
    never raises it: on every stream [parse] returns an AST or raises
    [InvalidSymbol] or [UnexpectedEOF]. *)
Theorem argument_count_never_exceeded :
  (forall st, state st = raw ->
              Instruction.args (instruction st) < name_count st + 1 ->
              step st (pen ascii_symbols) = Raise InvalidArgumentCount)
  ∧ (forall pre st, run initial pre = Ok st -> state st = raw ->
                    0 <= name_count st < Instruction.args (instruction st))
  ∧ (forall stream,
       (exists a, parse stream = Ok a)
       \/ parse stream = Raise InvalidSymbol
       \/ parse stream = Raise UnexpectedEOF).
Proof.
  split; [|split].
  - intros st Hst Hargs. unfold step, step_raw. rewrite Hst.
    change (raw =? idle) with false. change (raw =? raw) with true.
    rewrite Z.eqb_refl.
    destruct (Z.gtb_spec (Instruction.args (instruction st))
                (name_count st + 1)); [lia|].
    destruct (Z.eqb_spec (Instruction.args (instruction st))
                (name_count st + 1)); [lia|done].
  - intros pre st Hrun Hst.
    by apply (Inv_raw_inv _ _ (reachable _ _ Hrun)).
  - intros stream. unfold parse.
    pose proof (run_Inv stream 0 initial Inv_initial) as HI.
    destruct (run initial stream) as [st|e]; cbn [bind].
    + destruct (Inv_state _ _ HI) as [-> |[-> | ->]]; eauto.
    + subst e. auto.
Qed.
End Correct.

(** ** The two character sets *)

Lemma item_map_compose g f v :
  item_map g (item_map f v) = item_map (fun c => g (f c)) v.
Proof.
  induction v as [i|s|b IH] using item_nested_ind; simpl.
  - done.
  - by rewrite map_map.
  - f_equal. rewrite map_map. apply map_ext_Forall, IH.
Qed.

Lemma shape_map f a : shape (AST_map f a) = shape a.
Proof.
  unfold shape, AST_map. simpl. f_equal. rewrite map_map.
  apply map_ext. intros v. apply item_map_compose.
Qed.

(** Leaving the lists through a name literal ends in an exception that
    depends on the length of the literal only. *)
Lemma scalar_walk_length rest : forall s s',
  length s = length s' ->
  scalar_walk (SStr s) rest = scalar_walk (SStr s') rest.
Proof.
  induction rest as [|i rest IH]; intros s s' Hlen; simpl; [done|].
  unfold py_getitem. rewrite <- Hlen.
  destruct (py_index (length s) i) as [k|] eqn:Hk; [|done].
  assert (k < length s)%nat as Hlt.
  { unfold py_index in Hk.
    destruct ((0 <=? (if i <? 0 then i + Z.of_nat (length s) else i))
              && ((if i <? 0 then i + Z.of_nat (length s) else i)
                  <? Z.of_nat (length s))) eqn:Hb; [|done].
    injection Hk as <-. apply andb_prop in Hb as [H0 H1]. lia. }
  destruct (lookup_lt_is_Some_2 s k Hlt) as [c ->].
  destruct (lookup_lt_is_Some_2 s' k ltac:(lia)) as [c' ->].
  simpl. by apply IH.
Qed.

Lemma push_list_map f indices : forall x v,
  push_list (map (item_map f) x) (item_map f v) indices
  = result_map (map (item_map f)) (push_list x v indices).
Proof.
  induction indices as [|i rest IH]; intros x v; simpl.
  - by rewrite map_app.
  - rewrite length_map. destruct (py_index (length x) i) as [k|]; [|done].
    change (map (item_map f) x) with (item_map f <$> x).
    rewrite list_lookup_fmap.
    destruct (x !! k) as [[ins|s|b]|]; simpl; [done| |idtac|done].
    + f_equal. apply scalar_walk_length. by rewrite length_map.
    + rewrite IH. destruct (push_list b v rest) as [b'|e]; simpl; [|done].
      by rewrite list_fmap_insert.
Qed.

Lemma AST_push_map f a v indices :
  AST.push (AST_map f a) (item_map f v) indices
  = result_map (AST_map f) (AST.push a v indices).
Proof.
  unfold AST.push, AST_map. simpl. rewrite push_list_map.
  by destruct (push_list (AST.instructions a) v indices).
Qed.

Section Translation.
Variables (utf8_names a b : bool) (f : char -> char).

Lemma same_symbol_find c :
  same_symbol a b f c = true ->
  py_find (f c) (symbols b) = py_find c (symbols a).
Proof. by intros [?%bool_decide_eq_true _]%andb_prop. Qed.

Lemma same_symbol_isspace c :
  same_symbol a b f c = true -> isspace (f c) = isspace c.
Proof. intros [_ H]%andb_prop. by apply eqb_prop. Qed.

Lemma same_symbol_in c :
  same_symbol a b f c = true ->
  py_in (f c) (symbols b) = py_in c (symbols a).
Proof. intros H. by rewrite !py_in_find, (same_symbol_find _ H). Qed.

Lemma same_symbol_pen c :
  same_symbol a b f c = true -> (f c =? pen b) = (c =? pen a).
Proof. intros H. by rewrite !symbols_pen, (same_symbol_find _ H). Qed.

Lemma step_instruction_map st index :
  step_instruction (state_map f st) index
  = result_map (state_map f) (step_instruction st index).
Proof.
  destruct st as [s x p i0 k buf].
  unfold step_instruction. destruct (instructions !! index) as [i|]; [|done].
  unfold state_map. fields.
  rewrite (AST_push_map f x (Instr i)).
  destruct (AST.push x (Instr i) p) as [a1|e]; cbn [bind result_map]; [|done].
  destruct (Instruction.eqb i nil).
  { destruct (pop_while (rev p)) as [stack|e]; [|done].
    by destruct (py_setitem stack (-1) (-1)). }
  destruct (Instruction.eqb i split); [|done].
  rewrite (AST_push_map f a1 (Branch [])).
  destruct (AST.push a1 (Branch []) p) as [a2|e]; cbn [bind result_map]; [|done].
  rewrite (AST_push_map f a2 (Branch [])).
  by destruct (AST.push a2 (Branch []) p).
Qed.

Lemma step_raw_map st c :
  same_symbol a b f c = true ->
  step_raw utf8_names b (state_map f st) (f c)
  = result_map (state_map f) (step_raw utf8_names a st c).
Proof.
  intros Hc. destruct st as [s x p i k buf]. unfold step_raw.
  rewrite (same_symbol_pen _ Hc), (same_symbol_in _ Hc),
    (same_symbol_isspace _ Hc).
  unfold state_map. fields.
  rewrite !(AST_push_map f x (Name buf)).
  destruct (c =? pen a).
  - destruct (Instruction.args i >? k + 1).
    { by destruct (AST.push x (Name buf) p). }
    destruct (Instruction.args i =? k + 1); [|done].
    by destruct (AST.push x (Name buf) p).
  - destruct ((utf8_names && negb (isspace c)) || py_in c (symbols a));
      [|done].
    cbn [result_map]. fields. by rewrite map_app.
Qed.

Lemma step_map st c :
  same_symbol a b f c = true ->
  step utf8_names b (state_map f st) (f c)
  = result_map (state_map f) (step utf8_names a st c).
Proof.
  intros Hc. unfold step. cbn [state_map state].
  rewrite (same_symbol_find _ Hc), (same_symbol_in _ Hc).
  destruct (state st =? idle).
  { destruct (py_find c (symbols a)); [apply step_instruction_map|done]. }
  destruct (state st =? raw); [by apply step_raw_map|].
  destruct (state st =? blank); [|done].
  by destruct (py_in c (symbols a)).
Qed.

Lemma run_map stream : forall st,
  Forall (fun c => same_symbol a b f c = true) stream ->
  run utf8_names b (state_map f st) (map f stream)
  = result_map (state_map f) (run utf8_names a st stream).
Proof.
  induction stream as [|c stream IH]; intros st Hs; [done|].
  apply Forall_cons in Hs as [Hc Hs]. simpl.
  rewrite (step_map _ _ Hc).
  destruct (step utf8_names a st c) as [st'|e]; simpl; [by apply IH|done].
Qed.

Lemma parse_map stream :
  Forall (fun c => same_symbol a b f c = true) stream ->
  parse utf8_names b (map f stream)
  = result_map (AST_map f) (parse utf8_names a stream).
Proof.
  intros Hs. unfold parse. change initial with (state_map f initial) at 1.
  rewrite (run_map _ _ Hs).
  destruct (run utf8_names a initial stream) as [st|e]; [|done].
  cbn [bind result_map state_map state].
  destruct (state st =? idle); [done|]. by destruct (state st =? raw).
Qed.

(** C6. When every character of the translated program resolves, in its
    character set, to the same instruction as the character it translates
    in the other set, or like it to none, parsing the translation gives the
    outcome of parsing the program, the name literals translated: the same
    error, or an AST with the same nesting of branches and the same
    instructions in the same order. *)
Theorem charset_translation stream :
  Forall (fun c => same_symbol a b f c = true) stream ->
  parse utf8_names b (map f stream)
  = result_map (AST_map f) (parse utf8_names a stream)
  ∧ result_map shape (parse utf8_names b (map f stream))
    = result_map shape (parse utf8_names a stream).
Proof.
  intros Hparse%parse_map. split; [done|]. rewrite Hparse.
  destruct (parse utf8_names a stream) as [x|e]; [|done].
  cbn [result_map]. by rewrite shape_map.
Qed.
End Translation.

(** Exchanging the two sets is such a translation of every program, in
    both directions. *)
Lemma exchange_same_symbol c :
  same_symbol true false exchange c = true
  ∧ same_symbol false true exchange c = true.
Proof.
  unfold same_symbol, exchange, to_plain, translate.
  rewrite !(py_find_symbols _ c).
  unfold lock, unlock, key, pen, keylock, penlock.
  repeat match goal with
         | |- context [c =? ?y] =>
             destruct (Z.eqb_spec c y); [subst; by vm_compute|]
         end.
  rewrite !py_find_symbols.
  unfold lock, unlock, key, pen, keylock, penlock.
  repeat match goal with
         | |- context [c =? ?y] => destruct (Z.eqb_spec c y); [done|]
         end.
  by rewrite eqb_reflx.
Qed.

Lemma parse_exchange utf8_names stream :
  parse utf8_names false (map exchange stream)
  = result_map (AST_map exchange) (parse utf8_names true stream)
  ∧ parse utf8_names true (map exchange stream)
    = result_map (AST_map exchange) (parse utf8_names false stream).
Proof.
  split; apply parse_map, Forall_forall; intros c _;
    apply exchange_same_symbol.
Qed.

(** Writing the plain symbols as the visual ones is such a translation, on
    every character that is not already a visual symbol. *)
Lemma to_visual_same_symbol c :
  py_find c (symbols false) = None -> same_symbol true false to_visual c = true.
Proof.
  intros Hc. unfold same_symbol, to_visual, translate.
  rewrite (py_find_symbols true c).
  unfold lock, unlock, key, pen, keylock, penlock.
  repeat match goal with
         | |- context [c =? ?y] =>
             destruct (Z.eqb_spec c y); [subst; by vm_compute|]
         end.
  rewrite Hc. by rewrite eqb_reflx.
Qed.

(** ** The claims at concrete streams *)

Lemma argument_count_guard_witness :
  step false true (mkState raw (AST.mk []) [] nil 0 []) (pen true)
  = Raise InvalidArgumentCount.
Proof.
  apply (proj1 (argument_count_never_exceeded false true)); reflexivity.
Defined.

(** C1, as stated, fails at its own example. On these three streams, each
    a decrypt symbol followed by three delimited names, [parse] raises
    [UnexpectedEOF] or [InvalidSymbol] and not [InvalidArgumentCount]: on
    the first the third delimiter is read as a name instruction, on the two
    others the first character of the third name is read as the
    terminator. *)
Lemma third_delimited_name :
  parse true true (str "KaPbPcP") = Raise UnexpectedEOF
  ∧ parse false true (str "KNPSPNP") = Raise InvalidSymbol
  ∧ parse false false
      [key false; lock false; pen false; unlock false; pen false;
       lock false; pen false] = Raise InvalidSymbol.
Proof. by vm_compute. Qed.

Lemma nil_closes_branches_witness :
  exists a' keep n,
    AST.push (ast after_split) (Instr nil) (stack_ptr after_split) = Ok a'
    ∧ stack_ptr after_split = keep ++ replicate n (-1)
    ∧ (keep = []
       ∧ step false true after_split (lock true)
         = Ok (mkState blank a' [] nil 0 (name_stack after_split))
       \/ exists q,
           keep = q ++ [-2]
           ∧ step false true after_split (lock true)
             = Ok (mkState idle a' (q ++ [-1]) nil 0 (name_stack after_split))).
Proof. apply (nil_closes_branches false true (str "S")); reflexivity. Defined.

Lemma unexpected_eof_witness :
  parse false true (str "S") = Raise UnexpectedEOF.
Proof.
  apply (proj2 (proj2 (unexpected_eof false true [])) initial);
    [reflexivity|left; reflexivity].
Defined.

Lemma parse_sibling_pairs_witness :
  parse false true (str "SNN")
  = Ok (AST.mk [Instr split; Branch [Instr nil]; Branch [Instr nil]])
  ∧ sibling_pairs (AST.mk [Instr split; Branch [Instr nil]; Branch [Instr nil]])
    = 1%nat.
Proof.
  split; [reflexivity|].
  apply (parse_sibling_pairs false true (str "SNN")). reflexivity.
Defined.

Lemma push_path_valid_witness :
  Forall (fun d => d = -1 \/ d = -2) (stack_ptr after_split)
  ∧ (exists y, reaches (AST.instructions (ast after_split))
                 (stack_ptr after_split) y)
  ∧ (forall v, exists a',
        AST.push (ast after_split) v (stack_ptr after_split) = Ok a')
  ∧ (forall c, (exists st', step false true after_split c = Ok st')
               \/ step false true after_split c = Raise InvalidSymbol).
Proof. apply (push_path_valid false true (str "S")). reflexivity. Defined.

Lemma charset_translation_witness :
  parse true false (map to_visual (str "SKaPbPNN"))
  = result_map (AST_map to_visual) (parse true true (str "SKaPbPNN"))
  ∧ result_map shape (parse true false (map to_visual (str "SKaPbPNN")))
    = result_map shape (parse true true (str "SKaPbPNN")).
Proof.
  apply (charset_translation true true false to_visual (str "SKaPbPNN")).
  repeat (constructor; [reflexivity|]). constructor.
Defined.

Lemma parse_arity_witness :
  Forall (fun b => arity_ok b = true)
    (all_branches
       (AST.mk [Instr decrypt; Name (str "a"); Name (str "b"); Instr nil]))
  ∧ map Instruction.args [nil; split; name; decrypt; send; receive]
    = [0; 0; 1; 2; 2; 2].
Proof. apply (parse_arity true true (str "KaPbPN")). reflexivity. Defined.

Lemma raw_collects_witness :
  step true true after_decrypt 97
  = Ok (mkState raw (AST.mk [Instr decrypt]) [] decrypt 0 [97]).
Proof.
  apply (raw_collects true true after_decrypt 97); [reflexivity|].
  unfold pen. lia.
Defined.

Lemma ignorable_insertion_witness :
  run false true initial (str "S" ++ str " x") = Ok after_split
  ∧ parse false true (str "S" ++ str " x" ++ str "NN")
    = parse false true (str "S" ++ str "NN").
Proof.
  apply (ignorable_insertion false true (str "S") (str " x") (str "NN")).
  - reflexivity.
  - left. reflexivity.
  - repeat (constructor; [reflexivity|]). constructor.
Defined.

Lemma parse_names_exclude_delimiter_witness :
  Forall (Forall (fun c =>
                    c ≠ pen true
                    ∧ (true = false ->
                       c ∈ [lock true; unlock true; key true; keylock true;
                            penlock true])))
    (names_of
       (AST.mk [Instr decrypt; Name (str "a"); Name (str "b"); Instr nil])).
Proof.
  apply (parse_names_exclude_delimiter true true (str "KaPbPN")). reflexivity.
Defined.

(** * Further properties of the code *)

Example str_nested_splits :
  AST_str 3 (AST.mk [Instr split;
                     Branch [Instr split; Branch [Instr nil]; Branch [Instr nil]];
                     Branch [Instr name; Name (str "x"); Instr nil]])
  = Text [0x1F513; 32; 10; 32; 32; 0x1F513; 32;
          10; 32; 32; 32; 32; 0x1F512; 32;
          10; 32; 32; 32; 32; 0x1F512; 32;
          10; 32; 32; 0x1F58B; 32; 39; 120; 39; 32; 0x1F512; 32].
Proof. reflexivity. Qed.

Example str_too_deep :
  AST_str 2 (AST.mk [Instr split;
                     Branch [Instr split; Branch [Instr nil]; Branch [Instr nil]];
                     Branch [Instr nil]])
  = RecursionError.
Proof. reflexivity. Qed.

(** ** Characters the scan skips *)

Lemma space_not_symbol a c : isspace c = true -> py_in c (symbols a) = false.
Proof.
  intros Hc. unfold py_in, symbols. cbn [existsb].
  unfold lock, unlock, key, pen, keylock, penlock. destruct a;
    repeat match goal with
           | |- context [c =? ?y] =>
               destruct (Z.eqb_spec c y); [subst; by vm_compute in Hc|]
           end; done.
Qed.

Lemma py_in_pen a : py_in (pen a) (symbols a) = true.
Proof. by destruct a. Qed.

Lemma py_find_None_in c t : py_in c t = false -> py_find c t = None.
Proof.
  rewrite py_in_find. destruct (py_find c t); [|done].
  by rewrite bool_decide_eq_true_2.
Qed.

Section Skipped.
Variables (utf8_names ascii_symbols : bool).

#[local] Abbreviation step := (step utf8_names ascii_symbols).
#[local] Abbreviation run := (run utf8_names ascii_symbols).
#[local] Abbreviation parse := (parse utf8_names ascii_symbols).
#[local] Abbreviation symbols := (symbols ascii_symbols).

(** A character that is no symbol and that the name mode does not admit is
    skipped in every state. *)
Lemma step_skipped st c :
  py_in c symbols = false -> utf8_names && negb (isspace c) = false ->
  step st c = Ok st.
Proof.
  intros Hin Hname. unfold step, step_raw.
  rewrite Hin, Hname, (py_find_None_in _ _ Hin).
  destruct (Z.eqb_spec c (pen ascii_symbols)) as [->|_].
  { by rewrite py_in_pen in Hin. }
  cbn [orb]. destruct (state st =? idle); [done|].
  destruct (state st =? raw); [done|]. by destruct (state st =? blank).
Qed.

Lemma run_filter (keep : char -> bool) stream :
  (forall c st, keep c = false -> step st c = Ok st) ->
  forall st, run st (List.filter keep stream) = run st stream.
Proof.
  intros Hskip. induction stream as [|c stream IH]; intros st; [done|].
  cbn [List.filter]. destruct (keep c) eqn:Hc; cbn [run].
  - destruct (step st c); [apply IH|done].
  - rewrite (Hskip c st Hc). cbn [bind]. apply IH.
Qed.

Lemma step_space st c : isspace c = true -> step st c = Ok st.
Proof.
  intros Hc. apply step_skipped; [by apply space_not_symbol|].
  rewrite Hc. by destruct utf8_names.
Qed.

Lemma parse_filter_space stream :
  parse (List.filter (fun c => negb (isspace c)) stream) = parse stream.
Proof.
  unfold parse. rewrite run_filter; [done|].
  intros c st Hc. apply step_space. by destruct (isspace c).
Qed.

(** X5. Whitespace is skipped wherever it stands, in either name mode:
    [parse] gives on a stream the outcome it gives on the stream without
    its whitespace characters. *)
Theorem whitespace_skipped stream :
  parse stream = parse (List.filter (fun c => negb (isspace c)) stream).
Proof. symmetry. apply parse_filter_space. Qed.

(** *** After the end of the program *)

Lemma run_blank more : forall st,
  state st = blank ->
  run st more
  = if existsb (fun c => py_in c symbols) more
    then Raise InvalidSymbol else Ok st.
Proof.
  induction more as [|c more IH]; intros st Hst; [done|].
  cbn [run existsb]. unfold step. rewrite Hst.
  change (blank =? idle) with false. change (blank =? raw) with false.
  change (blank =? blank) with true.
  destruct (py_in c symbols); [done|]. cbn [bind orb]. by apply IH.
Qed.

Lemma run_Raise stream : forall st e,
  run st stream = Raise e ->
  exists pre c post st',
    stream = pre ++ c :: post ∧ run st pre = Ok st' ∧ step st' c = Raise e.
Proof.
  induction stream as [|c stream IH]; intros st e Hrun; [done|].
  cbn [run] in Hrun.
  destruct (step st c) as [st1|e1] eqn:Hstep; cbn [bind] in Hrun.
  - destruct (IH _ _ Hrun) as (pre & c' & post & st' & -> & Hpre & Hc').
    exists (c :: pre), c', post, st'. split; [done|]. split; [|done].
    cbn [run]. by rewrite Hstep.
  - injection Hrun as ->. by exists [], c, stream, st.
Qed.

Lemma parse_Ok_blank stream a :
  parse stream = Ok a
  <-> exists st, run initial stream = Ok st ∧ state st = blank ∧ ast st = a.
Proof.
  unfold parse. split.
  - intros Hp.
    pose proof (run_Inv utf8_names ascii_symbols stream 0 initial
                  (Inv_initial _ _)) as HI.
    destruct (run initial stream) as [st|e]; [|done]. cbn [bind] in Hp.
    exists st. split; [done|].
    destruct (Inv_state _ _ _ _ HI) as [Hst|[Hst|Hst]]; rewrite Hst in Hp;
      try done.
    split; [done|]. by injection Hp.
  - intros (st & -> & Hst & <-). cbn [bind]. by rewrite Hst.
Qed.

(** X2. [parse] raises [InvalidSymbol] exactly on a stream that holds one
    of the six symbols after a complete program: the stream is a stream on
    which [parse] succeeds, then a symbol, then anything. *)
Theorem invalid_symbol_iff stream :
  parse stream = Raise InvalidSymbol
  <-> exists pre c post a,
        stream = pre ++ c :: post ∧ parse pre = Ok a
        ∧ py_in c symbols = true.
Proof.
  split.
  - unfold parse at 1. intros Hp.
    destruct (run initial stream) as [st|e] eqn:Hrun; cbn [bind] in Hp.
    { destruct (state st =? idle); [done|]. by destruct (state st =? raw). }
    injection Hp as ->.
    destruct (run_Raise _ _ _ Hrun) as (pre & c & post & st' & -> & Hpre & Hc).
    pose proof (step_Inv _ _ _ _ c (reachable _ _ _ _ Hpre)) as Hstep.
    fold step in Hstep. rewrite Hc in Hstep. destruct Hstep as (_ & Hst & Hin).
    exists pre, c, post, (ast st'). split; [done|]. split; [|done].
    apply parse_Ok_blank. by exists st'.
  - intros (pre & c & post & a & -> & (st & Hrun & Hst & _)%parse_Ok_blank & Hc).
    unfold parse. rewrite run_app, Hrun. cbn [bind].
    rewrite run_blank by done. cbn [existsb]. by rewrite Hc.
Qed.

(** X3. A complete program cannot be continued: after a stream on which
    [parse] succeeds, more characters leave the AST as it is when none of
    them is a symbol, and raise [InvalidSymbol] otherwise. *)
Theorem complete_program_extended stream a more :
  parse stream = Ok a ->
  parse (stream ++ more)
  = if existsb (fun c => py_in c symbols) more
    then Raise InvalidSymbol else Ok a.
Proof.
  intros (st & Hrun & Hst & <-)%parse_Ok_blank.
  unfold parse. rewrite run_app, Hrun. cbn [bind].
  rewrite run_blank by done.
  destruct (existsb (fun c => py_in c symbols) more); [done|].
  cbn [bind]. by rewrite Hst.
Qed.

(** X4. A program cut before one of its symbols is incomplete: when
    [parse] succeeds on a stream, it raises [UnexpectedEOF] on every part of
    the stream that leaves a symbol out at the end. *)
Theorem truncated_program pre post a :
  parse (pre ++ post) = Ok a ->
  existsb (fun c => py_in c symbols) post = true ->
  parse pre = Raise UnexpectedEOF.
Proof.
  intros (st & Hrun & _)%parse_Ok_blank Hpost.
  rewrite run_app in Hrun. unfold parse.
  destruct (run initial pre) as [st0|e] eqn:Hpre; [|done]. cbn [bind] in *.
  destruct (Inv_state _ _ _ _ (reachable _ _ _ _ Hpre)) as [Hst|[Hst|Hst]];
    rewrite Hst; try done.
  by rewrite run_blank, Hpost in Hrun.
Qed.

(** X8. A stream without any of the six symbols, the empty stream among
    them, raises [UnexpectedEOF]. *)
Theorem no_symbol_no_program stream :
  Forall (fun c => py_in c symbols = false) stream ->
  parse stream = Raise UnexpectedEOF.
Proof.
  intros Hs. unfold parse.
  rewrite (run_ignored utf8_names ascii_symbols stream initial);
    [done|by left|done].
Qed.
End Skipped.

(** ** The name mode *)

(** X6. With restricted names only the six symbols count: [parse] gives on
    a stream the outcome it gives on the symbols of the stream alone. *)
Theorem restricted_symbols_only ascii_symbols stream :
  parse false ascii_symbols stream
  = parse false ascii_symbols
      (List.filter (fun c => py_in c (symbols ascii_symbols)) stream).
Proof.
  unfold parse. rewrite run_filter; [done|].
  intros c st Hc. by apply step_skipped.
Qed.

Lemma step_name_mode ascii_symbols st c :
  py_in c (symbols ascii_symbols) || isspace c = true ->
  step true ascii_symbols st c = step false ascii_symbols st c.
Proof.
  intros Hc. unfold step, step_raw. cbn [andb].
  destruct (py_in c (symbols ascii_symbols)) eqn:Hin.
  - by rewrite !orb_true_r.
  - cbn [orb] in Hc. by rewrite Hc.
Qed.

Lemma run_name_mode ascii_symbols stream : forall st,
  Forall (fun c => py_in c (symbols ascii_symbols) || isspace c = true) stream ->
  run true ascii_symbols st stream = run false ascii_symbols st stream.
Proof.
  induction stream as [|c stream IH]; intros st Hs; [done|].
  apply Forall_cons in Hs as [Hc Hs]. cbn [run].
  rewrite (step_name_mode _ _ _ Hc).
  destruct (step false ascii_symbols st c); [by apply IH|done].
Qed.

(** X7. The name mode only matters for characters that are neither symbols
    nor whitespace: on a stream of symbols and whitespace, [parse] gives the
    same outcome with unrestricted and with restricted names. *)
Theorem name_mode_irrelevant ascii_symbols stream :
  Forall (fun c => py_in c (symbols ascii_symbols) || isspace c = true) stream ->
  parse true ascii_symbols stream = parse false ascii_symbols stream.
Proof. intros Hs. unfold parse. by rewrite run_name_mode. Qed.

(** ** [AST.push] on any list and path *)

Lemma reaches_unique x indices y :
  reaches x indices y -> forall y', reaches x indices y' -> y = y'.
Proof.
  induction 1 as [x|x i k b rest y Hi Hk _ IH]; intros y' Hy'.
  - by inversion Hy'.
  - inversion Hy' as [|? ? k' b' ? ? Hi' Hk' Hb']; subst.
    rewrite Hi in Hi'. injection Hi' as <-.
    rewrite Hk in Hk'. injection Hk' as <-. by apply IH.
Qed.

Lemma push_list_reaches indices : forall x v x',
  push_list x v indices = Ok x' ->
  exists y, reaches x indices y ∧ reaches x' indices (y ++ [v]).
Proof.
  induction indices as [|i rest IH]; intros x v x' Hpush; simpl in Hpush.
  - injection Hpush as <-. exists x. split; constructor.
  - destruct (py_index (length x) i) as [k|] eqn:Hi; [|done].
    destruct (x !! k) as [[ins|s|b]|] eqn:Hk; try done.
    destruct (push_list b v rest) as [b'|e] eqn:Hb; [|done].
    injection Hpush as <-.
    destruct (IH _ _ _ Hb) as (y & Hy & Hy').
    exists y. split; [by eapply reaches_step|].
    eapply reaches_step; [by rewrite length_insert| |done].
    apply list_lookup_insert_eq. by eapply lookup_lt_Some.
Qed.

Lemma py_getitem_error {A} (x : list A) i e :
  py_getitem x i = Raise e -> e = IndexError.
Proof.
  unfold py_getitem. destruct (py_index (length x) i) as [k|]; [|congruence].
  destruct (x !! k); congruence.
Qed.

Lemma scalar_getitem_error x i e :
  scalar_getitem x i = Raise e -> python_error e.
Proof.
  unfold python_error. destruct x as [ins|s|z|sym]; simpl.
  - intros ->%py_getitem_error. auto.
  - destruct (py_getitem s i) eqn:Hs; [done|]. simpl. intros [= <-].
    apply py_getitem_error in Hs. auto.
  - intros [= <-]. auto.
  - intros [= <-]. auto.
Qed.

Lemma scalar_walk_error indices : forall x, python_error (scalar_walk x indices).
Proof.
  induction indices as [|i rest IH]; intros x; simpl.
  - right. by right.
  - destruct (scalar_getitem x i) as [x'|e] eqn:Hx; [apply IH|].
    by eapply scalar_getitem_error.
Qed.

Lemma push_list_error indices : forall x v e,
  push_list x v indices = Raise e -> python_error e.
Proof.
  induction indices as [|i rest IH]; intros x v e Hpush; simpl in Hpush;
    [done|].
  destruct (py_index (length x) i) as [k|];
    [|injection Hpush as <-; left; done].
  destruct (x !! k) as [[ins|s|b]|].
  - injection Hpush as <-. apply scalar_walk_error.
  - injection Hpush as <-. apply scalar_walk_error.
  - destruct (push_list b v rest) as [b'|e'] eqn:Hb; [done|].
    injection Hpush as <-. by eapply IH.
  - injection Hpush as <-. by left.
Qed.

(** X1. [push] succeeds exactly when every index of the path is in bounds
    and selects a list; the list the path reaches is then the list it
    reached before with the value appended. When [push] fails it raises
    [IndexError], [TypeError] or [AttributeError]. *)
Theorem push_spec (self : AST.t) value indices :
  ((exists self', AST.push self value indices = Ok self')
   <-> exists y, reaches (AST.instructions self) indices y)
  ∧ (forall self' y,
       AST.push self value indices = Ok self' ->
       reaches (AST.instructions self) indices y ->
       reaches (AST.instructions self') indices (y ++ [value]))
  ∧ (forall e, AST.push self value indices = Raise e -> python_error e).
Proof.
  unfold AST.push. split; [split|split].
  - intros (self' & Hpush).
    destruct (push_list (AST.instructions self) value indices) as [x'|e] eqn:Hx;
      [|done].
    destruct (push_list_reaches _ _ _ _ Hx) as (y & Hy & _). by exists y.
  - intros (y & Hy). destruct (reaches_push _ _ _ Hy value) as (x' & ->).
    by eexists.
  - intros self' y Hpush Hy.
    destruct (push_list (AST.instructions self) value indices) as [x'|e] eqn:Hx;
      [|done].
    injection Hpush as <-. cbn [AST.instructions].
    destruct (push_list_reaches _ _ _ _ Hx) as (y0 & Hy0 & Hy0').
    by rewrite (reaches_unique _ _ _ Hy _ Hy0).
  - intros e Hpush.
    destruct (push_list (AST.instructions self) value indices) as [x'|e'] eqn:Hx;
      [done|].
    injection Hpush as <-. by eapply push_list_error.
Qed.

(** ** The symbols of the instructions *)

(** X13. With the default character set a character resolves to the
    instruction whose [symbol] it is the value of: the symbols [parse]
    reads are those [str] writes. *)
Theorem default_symbols_resolve c i :
  (exists k, py_find c (symbols false) = Some k ∧ instructions !! k = Some i)
  <-> i ∈ instructions ∧ Symbol.value (Instruction.symbol i) = c.
Proof.
  split.
  - intros (k & Hk & Hi). rewrite py_find_symbols in Hk.
    rewrite instructions_lookup in Hi.
    unfold lock, unlock, key, pen, keylock, penlock in Hk.
    repeat match type of Hk with
           | context [c =? ?y] =>
               destruct (Z.eqb_spec c y);
               [injection Hk as <-; injection Hi as <-; subst; split;
                [unfold instructions; rewrite !elem_of_cons; tauto|done]|]
           end.
    done.
  - intros [Hi <-]. unfold instructions in Hi.
    rewrite !elem_of_cons, elem_of_nil in Hi.
    destruct Hi as [-> | [-> | [-> | [-> | [-> | [-> | []]]]]]].
    + by exists 0%nat.
    + by exists 1%nat.
    + by exists 2%nat.
    + by exists 3%nat.
    + by exists 4%nat.
    + by exists 5%nat.
Qed.

(** ** How the branches end *)

Lemma nil_last_names ns rest :
  nil_last (map Name ns ++ rest) = nil_last rest.
Proof. by induction ns. Qed.

Example ends_needs_both_branches :
  ends [Instr split; Branch [Instr nil]] = false
  ∧ ends [Branch [Instr nil]] = false
  ∧ ends [Instr split; Branch [Instr nil]; Branch [Instr nil]] = true.
Proof. by vm_compute. Qed.

Lemma ends_nil b : ends (b ++ [Instr nil]) = true.
Proof. unfold ends. by rewrite rev_unit. Qed.

Lemma ends_split b x y :
  ends (b ++ [Instr split; Branch x; Branch y]) = true.
Proof. unfold ends. by rewrite rev_app_distr. Qed.

Section Terminated.
Variables (utf8_names ascii_symbols : bool).

#[local] Abbreviation parse := (parse utf8_names ascii_symbols).
#[local] Abbreviation group_ok := (group_ok utf8_names ascii_symbols).
#[local] Abbreviation ctree_ok := (ctree_ok utf8_names ascii_symbols).

Lemma nil_last_groups gs rest :
  Forall group_ok gs ->
  nil_last (render_groups gs ++ rest) = nil_last rest.
Proof.
  induction 1 as [|[i ns] gs (Hi & _ & _) _ IH]; [done|].
  rewrite render_groups_cons. cbn [nil_last].
  cbn [fst] in Hi. destruct (takes_names_args _ Hi) as (_ & -> & _).
  by rewrite nil_last_names, IH.
Qed.

Lemma filter_nil_groups gs rest :
  Forall group_ok gs ->
  List.filter (is_instr nil) (render_groups gs ++ rest)
  = List.filter (is_instr nil) rest.
Proof.
  induction 1 as [|[i ns] gs (Hi & _ & _) _ IH]; [done|].
  rewrite render_groups_cons. cbn [List.filter is_instr].
  cbn [fst] in Hi. destruct (takes_names_args _ Hi) as (_ & -> & _).
  by rewrite filter_instr_names, IH.
Qed.

(** A sum over the branches that counts the branches ended by nil. *)
Lemma branches_sum_leaves (f : list item -> nat) :
  (forall gs, Forall group_ok gs -> f (render (CNil gs)) = 1%nat) ->
  (forall gs a b, Forall group_ok gs -> f (render (CSplit gs a b)) = O) ->
  forall c, ctree_ok c ->
    list_sum (map f (all_branches (AST.mk (render c)))) = S (csplits c).
Proof.
  intros Hnil Hsplit. unfold all_branches. cbn [AST.instructions].
  induction c as [gs|gs a IHa b IHb]; intros Hc; rewrite nested_render.
  - cbn [map]. by rewrite list_sum_cons, Hnil.
  - destruct Hc as (Hgs & Ha & Hb).
    cbn [map]. rewrite list_sum_cons, map_app, list_sum_app.
    rewrite Hsplit, IHa, IHb by done. simpl. lia.
Qed.

(** X9. On every stream on which [parse] succeeds, each branch of the AST
    ends with a nil instruction or with a split instruction and its two
    nested branches, nothing follows a nil instruction in its branch, and
    the nil instructions are one more than the split instructions. *)
Theorem branches_terminated stream a :
  parse stream = Ok a ->
  Forall (fun b => nil_last b && ends b = true) (all_branches a)
  ∧ count_instr nil a = S (count_instr split a).
Proof.
  intros (c & -> & Hc & _)%parse_Ok. split.
  - apply (branches_Forall utf8_names ascii_symbols); [| |done].
    + intros gs Hgs. cbn [render].
      by rewrite nil_last_groups, ends_nil.
    + intros gs x y Hgs. cbn [render].
      by rewrite nil_last_groups, ends_split.
  - unfold count_instr.
    rewrite (branches_sum utf8_names ascii_symbols
               (fun b => length (List.filter (is_instr split) b)));
      [| | |done].
    + apply branches_sum_leaves; [| |done].
      * intros gs Hgs. cbn [render]. by rewrite filter_nil_groups.
      * intros gs x y Hgs. cbn [render]. by rewrite filter_nil_groups.
    + intros gs Hgs. cbn [render].
      by rewrite (filter_split_groups utf8_names ascii_symbols).
    + intros gs x y Hgs. cbn [render].
      by rewrite (filter_split_groups utf8_names ascii_symbols).
Qed.
End Terminated.

(** ** What the name literals are made of *)

Lemma names_here_app x y : names_here (x ++ y) = names_here x ++ names_here y.
Proof.
  induction x as [|[i|s|b] x IH]; simpl; [done|done| |done]. by rewrite IH.
Qed.

Lemma names_of_cons x :
  names_of (AST.mk x) = names_here x ++ concat (map names_here (nested x)).
Proof. done. Qed.

Lemma Forall_names_app (P : pystr -> Prop) x y :
  Forall P (names_of (AST.mk (x ++ y)))
  <-> Forall P (names_of (AST.mk x)) ∧ Forall P (names_of (AST.mk y)).
Proof.
  rewrite !names_of_cons, nested_app, map_app, concat_app, names_here_app.
  rewrite !Forall_app. tauto.
Qed.

Lemma Forall_names_branch (P : pystr -> Prop) b :
  Forall P (names_of (AST.mk [Branch b])) <-> Forall P (names_of (AST.mk b)).
Proof.
  rewrite !names_of_cons. unfold nested. simpl. by rewrite app_nil_r.
Qed.

Lemma push_list_names (P : pystr -> Prop) indices : forall x v x',
  push_list x v indices = Ok x' ->
  Forall P (names_of (AST.mk x)) -> Forall P (names_of (AST.mk [v])) ->
  Forall P (names_of (AST.mk x')).
Proof.
  induction indices as [|i rest IH]; intros x v x' Hpush Hx Hv;
    simpl in Hpush.
  - injection Hpush as <-. by apply Forall_names_app.
  - destruct (py_index (length x) i) as [k|]; [|done].
    destruct (x !! k) as [[ins|s|b]|] eqn:Hk; try done.
    destruct (push_list b v rest) as [b'|e] eqn:Hb; [|done].
    injection Hpush as <-.
    rewrite insert_take_drop by by eapply lookup_lt_Some.
    rewrite <- (take_drop_middle _ _ _ Hk) in Hx.
    change (Branch b :: drop (S k) x)
      with ([Branch b] ++ drop (S k) x) in Hx.
    change (Branch b' :: drop (S k) x) with ([Branch b'] ++ drop (S k) x).
    rewrite !Forall_names_app, Forall_names_branch in Hx |- *.
    destruct Hx as (Ht & Hbr & Hd). repeat split; [done| |done].
    by eapply IH.
Qed.

Lemma AST_push_names (P : pystr -> Prop) a v indices a' :
  AST.push a v indices = Ok a' ->
  Forall P (names_of a) -> Forall P (names_of (AST.mk [v])) ->
  Forall P (names_of a').
Proof.
  destruct a as [x]. unfold AST.push. cbn [AST.instructions].
  destruct (push_list x v indices) as [x'|e] eqn:Hx; [|done].
  intros [= <-]. by eapply push_list_names.
Qed.

Section Names.
Variables (utf8_names ascii_symbols : bool) (Q : char -> Prop).

#[local] Abbreviation step := (step utf8_names ascii_symbols).
#[local] Abbreviation run := (run utf8_names ascii_symbols).
#[local] Abbreviation parse := (parse utf8_names ascii_symbols).
#[local] Abbreviation symbols := (symbols ascii_symbols).

#[local] Abbreviation admits := (admits utf8_names ascii_symbols Q).
#[local] Abbreviation names_in := (names_in Q).

Lemma step_instruction_names_in st index st' :
  step_instruction st index = Ok st' -> names_in st -> names_in st'.
Proof.
  unfold step_instruction, names_in. intros Hstep [Hast Hbuf].
  destruct (instructions !! index) as [i|]; [|done].
  destruct (AST.push (ast st) (Instr i) (stack_ptr st)) as [a1|e] eqn:H1;
    [|done].
  cbn [bind] in Hstep.
  assert (Forall (Forall Q) (names_of a1)) as Ha1
    by by eapply AST_push_names.
  destruct (Instruction.eqb i nil).
  { destruct (pop_while (rev (stack_ptr st))) as [stack|e].
    - destruct (py_setitem stack (-1) (-1)); [|done].
      by injection Hstep as <-.
    - by injection Hstep as <-. }
  destruct (Instruction.eqb i split); [|by injection Hstep as <-].
  destruct (AST.push a1 (Branch []) (stack_ptr st)) as [a2|e] eqn:H2; [|done].
  cbn [bind] in Hstep.
  destruct (AST.push a2 (Branch []) (stack_ptr st)) as [a3|e] eqn:H3; [|done].
  injection Hstep as <-. split; [|done]. cbn [ast].
  eapply AST_push_names; [done| |done].
  by eapply AST_push_names.
Qed.

Lemma step_names_in st c st' :
  admits c -> step st c = Ok st' -> names_in st -> names_in st'.
Proof.
  intros Hc Hstep Hin. unfold step in Hstep.
  destruct (state st =? idle).
  { destruct (py_find c symbols); [|by injection Hstep as <-].
    by eapply step_instruction_names_in. }
  destruct (state st =? raw).
  - unfold step_raw in Hstep. destruct Hin as [Hast Hbuf].
    assert (Forall (Forall Q) (names_of (AST.mk [Name (name_stack st)])))
      as Hname by (rewrite names_of_cons; simpl; by constructor).
    destruct (c =? pen ascii_symbols).
    + destruct (Instruction.args (instruction st) >? name_count st + 1).
      { destruct (AST.push (ast st) (Name (name_stack st)) (stack_ptr st))
          as [a1|e] eqn:H1; [|done].
        injection Hstep as <-. split; [|done]. by eapply AST_push_names. }
      destruct (Instruction.args (instruction st) =? name_count st + 1);
        [|done].
      destruct (AST.push (ast st) (Name (name_stack st)) (stack_ptr st))
        as [a1|e] eqn:H1; [|done].
      injection Hstep as <-. split; [|done]. by eapply AST_push_names.
    + destruct ((utf8_names && negb (isspace c)) || py_in c symbols) eqn:Hcond.
      * injection Hstep as <-. split; [done|]. cbn [name_stack].
        apply Forall_app. split; [done|]. constructor; [by apply Hc|done].
      * by injection Hstep as <-.
  - destruct (state st =? blank); [|by injection Hstep as <-].
    destruct (py_in c symbols); [done|]. by injection Hstep as <-.
Qed.

Lemma run_names_in stream : forall st st',
  Forall admits stream -> run st stream = Ok st' ->
  names_in st -> names_in st'.
Proof.
  induction stream as [|c stream IH]; intros st st' Hs Hrun Hin.
  - by injection Hrun as <-.
  - apply Forall_cons in Hs as [Hc Hs]. cbn [run] in Hrun.
    destruct (step st c) as [st1|e] eqn:Hstep; [|done].
    eapply IH; [done|exact Hrun|]. by eapply step_names_in.
Qed.

Lemma parse_names_in stream a :
  Forall admits stream -> parse stream = Ok a ->
  Forall (Forall Q) (names_of a).
Proof.
  intros Hs Hp. unfold parse in Hp.
  destruct (run initial stream) as [st|e] eqn:Hrun; [|done].
  cbn [bind] in Hp.
  destruct (state st =? idle); [done|]. destruct (state st =? raw); [done|].
  injection Hp as <-.
  eapply (run_names_in stream initial st Hs Hrun). by split.
Qed.
End Names.

(** X10. On every stream on which [parse] succeeds, in either name mode,
    every character of every name literal of the AST is a character of the
    stream and is not whitespace. *)
Theorem names_from_stream utf8_names ascii_symbols stream a :
  parse utf8_names ascii_symbols stream = Ok a ->
  Forall (Forall (fun c => c ∈ stream ∧ isspace c = false)) (names_of a).
Proof.
  apply parse_names_in. apply Forall_forall. intros c Hc Hcond.
  unfold admitted in Hcond. split; [done|].
  destruct (isspace c) eqn:Hsp; [|done].
  rewrite (space_not_symbol _ _ Hsp) in Hcond. by destruct utf8_names.
Qed.

(** ** The frames [str] needs *)

Lemma _parse_line_cons frames v rest depth :
  _parse_line (S frames) (v :: rest) depth
  = match
      match v with
      | Instr i => Text [Symbol.value (Instruction.symbol i); space]
      | Name s => Text (quote :: s ++ [quote; space])
      | Branch b =>
          match _parse_line frames b (S depth) with
          | Text t =>
              Text ((newline :: replicate (2 * (depth + 1)) space) ++ t)
          | RecursionError => RecursionError
          end
      end
    with
    | Text t =>
        match _parse_line (S frames) rest depth with
        | Text t' => Text (t ++ t')
        | RecursionError => RecursionError
        end
    | RecursionError => RecursionError
    end.
Proof. done. Qed.

Lemma levels_cons v rest :
  levels (v :: rest) = Nat.max (S (item_levels v)) (levels rest).
Proof.
  unfold levels. cbn [map].
  change (list_max (item_levels v :: map item_levels rest))
    with (Nat.max (item_levels v) (list_max (map item_levels rest))).
  lia.
Qed.

(** [_parse_line] returns the text exactly when the frames allowed cover
    the levels of the line. *)
Lemma _parse_line_levels frames : forall line depth,
  _parse_line frames line depth
  = if (levels line <=? frames)%nat then Text (line_text line depth)
    else RecursionError.
Proof.
  induction frames as [|frames IH]; intros line depth; [done|].
  induction line as [|v rest IHrest]; [done|].
  rewrite _parse_line_cons, IHrest, levels_cons.
  assert (forall t,
            match
              (if (levels rest <=? S frames)%nat
               then Text (line_text rest depth) else RecursionError)
            with
            | Text t' => Text (t ++ t')
            | RecursionError => RecursionError
            end
            = if (levels rest <=? S frames)%nat
              then Text (t ++ line_text rest depth) else RecursionError)
    as Hrest by (intros t; by destruct (levels rest <=? S frames)%nat).
  destruct v as [i|s|b].
  - rewrite Hrest. cbn [item_levels].
    replace (Nat.max 1 (levels rest)) with (levels rest)
      by (unfold levels; lia).
    done.
  - rewrite Hrest. cbn [item_levels].
    replace (Nat.max 1 (levels rest)) with (levels rest)
      by (unfold levels; lia).
    done.
  - rewrite IH. cbn [item_levels]. fold (levels b).
    destruct (Nat.leb_spec (levels b) frames) as [Hb|Hb].
    + rewrite Hrest.
      destruct (Nat.leb_spec (levels rest) (S frames));
        destruct (Nat.leb_spec (Nat.max (S (levels b)) (levels rest))
                    (S frames)); try lia; done.
    + destruct (Nat.leb_spec (Nat.max (S (levels b)) (levels rest))
                  (S frames)); [lia|done].
Qed.

Lemma AST_str_Text frames a text :
  AST_str frames a = Text text ->
  text = line_text (AST.instructions a) O
  ∧ (levels (AST.instructions a) <= frames)%nat.
Proof.
  unfold AST_str. rewrite _parse_line_levels.
  destruct (Nat.leb_spec (levels (AST.instructions a)) frames); [|done].
  by intros [= <-].
Qed.

(** ** Reading back what [str] writes *)

Lemma run_space utf8_names ascii_symbols ws : forall st,
  Forall (fun c => isspace c = true) ws ->
  run utf8_names ascii_symbols st ws = Ok st.
Proof.
  induction ws as [|c ws IH]; intros st Hws; [done|].
  apply Forall_cons in Hws as [Hc Hws]. cbn [run].
  rewrite step_space by done. by apply IH.
Qed.

Lemma step_split_eq utf8_names ascii_symbols fs gs i k :
  step utf8_names ascii_symbols
    (mkState idle (AST.mk (plug fs (render_groups gs))) (path fs) i k [])
    (unlock ascii_symbols)
  = Ok (mkState idle (AST.mk (plug (FFirst gs :: fs) []))
          (path (FFirst gs :: fs)) split 0 []).
Proof.
  unfold step. fields. change (idle =? idle) with true.
  assert (py_find (unlock ascii_symbols) (symbols ascii_symbols)
          = Some 1%nat) as -> by by destruct ascii_symbols.
  unfold step_instruction. rewrite instructions_lookup. fields.
  rewrite AST_push_plug. cbn [bind].
  replace (Instruction.eqb split nil) with false by by vm_compute.
  replace (Instruction.eqb split split) with true by by vm_compute.
  do 2 (rewrite AST_push_plug; cbn [bind]).
  cbn [plug wrap]. by rewrite <- !app_assoc.
Qed.

Lemma names_bare utf8_names ascii_symbols c :
  ctree_ok utf8_names ascii_symbols c ->
  names_of (AST.mk (render c)) = [] -> bare c.
Proof.
  induction c as [gs|gs a IHa b IHb]; intros Hc Hnames;
    rewrite names_of_cons, nested_render in Hnames;
    apply app_eq_nil in Hnames as [Hhere Hnested].
  - cbn [render] in Hhere. destruct gs as [|[i ns] gs]; [done|].
    apply Forall_cons in Hc as [(Hi & Hlen & _) _].
    cbn [fst snd] in Hi, Hlen.
    destruct (takes_names_args _ Hi) as (_ & _ & Hargs).
    rewrite render_groups_cons in Hhere. cbn [names_here] in Hhere.
    rewrite names_here_names in Hhere. destruct ns; [simpl in Hlen; lia|done].
  - destruct Hc as (Hgs & Ha & Hb). cbn [render] in Hhere.
    assert (gs = []) as ->.
    { destruct gs as [|[i ns] gs]; [done|].
      apply Forall_cons in Hgs as [(Hi & Hlen & _) _].
      cbn [fst snd] in Hi, Hlen.
      destruct (takes_names_args _ Hi) as (_ & _ & Hargs).
      rewrite render_groups_cons in Hhere. cbn [names_here] in Hhere.
      rewrite names_here_names in Hhere.
      destruct ns; [simpl in Hlen; lia|done]. }
    rewrite map_app, concat_app in Hnested.
    apply app_eq_nil in Hnested as [Hna Hnb].
    split; [done|]. split; [by apply IHa|by apply IHb].
Qed.

Lemma line_text_split a b depth :
  line_text (render (CSplit [] a b)) depth
  = [unlock false; space]
    ++ ((newline :: replicate (2 * (depth + 1)) space)
        ++ line_text (render a) (S depth))
    ++ ((newline :: replicate (2 * (depth + 1)) space)
        ++ line_text (render b) (S depth)).
Proof.
  unfold line_text. cbn [render render_groups map concat app item_text].
  by rewrite app_nil_r.
Qed.

Section ReadBack.
Variable utf8_names : bool.

#[local] Abbreviation run := (run utf8_names false).

Lemma run_str_bare c : forall fs depth i k,
  bare c ->
  run (mkState idle (AST.mk (plug fs [])) (path fs) i k [])
      (line_text (render c) depth)
  = Ok (closed_state fs c).
Proof.
  induction c as [gs|gs a IHa b IHb]; intros fs depth i k Hc.
  - cbn [bare] in Hc. subst gs.
    change (line_text (render (CNil [])) depth)
      with ([lock false] ++ [space]).
    pose proof (step_nil_eq utf8_names false fs [] i k) as Hnil.
    change (render_groups []) with ([] : list item) in Hnil.
    rewrite run_app. cbn [run]. rewrite Hnil. cbn [bind].
    rewrite step_space by done. cbn [bind]. unfold closed_state.
    pose proof (close_spec fs (CNil [])) as Hclose.
    destruct (close fs (CNil [])) as [c'|fs'].
    + destruct Hclose as (_ & Hplug & _). by rewrite <- Hplug.
    + destruct Hclose as (keep & n & _ & _ & Hplug & _). by rewrite <- Hplug.
  - destruct Hc as (-> & Ha & Hb).
    rewrite line_text_split.
    assert (Forall (fun c => isspace c = true)
              (newline :: replicate (2 * (depth + 1)) space)) as Hws.
    { constructor; [done|]. by apply Forall_replicate. }
    pose proof (step_split_eq utf8_names false fs [] i k) as Hsplit.
    change (render_groups []) with ([] : list item) in Hsplit.
    rewrite run_app. cbn [run]. rewrite Hsplit. cbn [bind].
    rewrite step_space by done. cbn [bind].
    rewrite run_app, run_app, run_space by done. cbn [bind].
    rewrite (IHa (FFirst [] :: fs) (S depth) split 0 Ha).
    cbn [bind]. unfold closed_state at 1. cbn [close].
    rewrite run_app, run_space by done. cbn [bind].
    rewrite (IHb (FSecond [] a :: fs) (S depth) nil 0 Hb).
    by unfold closed_state.
Qed.
End ReadBack.

(** X11. The AST of a program without name literals is read back from the
    text [str] writes for it: whenever [str] returns a text, [parse], with
    the default symbols and either name mode, gives on that text the same
    AST, whatever the modes the program was parsed with. *)
Theorem str_parsed_back utf8_names ascii_symbols stream a frames text
    utf8_names' :
  parse utf8_names ascii_symbols stream = Ok a ->
  names_of a = [] ->
  AST_str frames a = Text text ->
  parse utf8_names' false text = Ok a.
Proof.
  intros (c & -> & Hc & _)%parse_Ok Hnames [-> _]%AST_str_Text.
  pose proof (names_bare _ _ c Hc Hnames) as Hbare.
  unfold parse. cbn [AST.instructions].
  change initial with (mkState idle (AST.mk (plug [] [])) (path []) nil 0 []).
  by rewrite run_str_bare.
Qed.

(** ** The lines of the text *)

Lemma line_breaks_app s t :
  line_breaks (s ++ t) = (line_breaks s + line_breaks t)%nat.
Proof. unfold line_breaks. by rewrite List.filter_app, length_app. Qed.

Lemma line_breaks_none s :
  Forall (fun c => isspace c = false) s -> line_breaks s = O.
Proof.
  unfold line_breaks. induction 1 as [|c s Hc _ IH]; [done|].
  cbn [List.filter]. destruct (Z.eqb_spec newline c) as [<-|_]; [done|].
  exact IH.
Qed.

Lemma line_breaks_spaces n : line_breaks (replicate n space) = O.
Proof. by induction n. Qed.

Lemma line_breaks_concat b depth :
  Forall (fun v => forall depth,
            Forall (Forall (fun c => isspace c = false))
                   (names_of (AST.mk [v])) ->
            line_breaks (item_text depth v) = length (item_branches v)) b ->
  Forall (Forall (fun c => isspace c = false)) (names_of (AST.mk b)) ->
  line_breaks (concat (map (item_text depth) b))
  = length (concat (map item_branches b)).
Proof.
  induction 1 as [|v b Hv _ IHb]; intros Hnames; [done|].
  change (v :: b) with ([v] ++ b) in Hnames.
  apply Forall_names_app in Hnames as [Hnv Hnb].
  cbn [map concat]. rewrite line_breaks_app, length_app.
  by rewrite Hv, IHb.
Qed.

Lemma line_breaks_item v :
  forall depth,
    Forall (Forall (fun c => isspace c = false)) (names_of (AST.mk [v])) ->
    line_breaks (item_text depth v) = length (item_branches v).
Proof.
  induction v as [i|s|b IH] using item_nested_ind; intros depth Hnames.
  - cbn [item_text item_branches length]. by destruct (Instruction.symbol i).
  - rewrite names_of_cons in Hnames. simpl in Hnames.
    apply Forall_cons in Hnames as [Hs _].
    cbn [item_text item_branches length].
    change (quote :: s ++ [quote; space]) with ([quote] ++ s ++ [quote; space]).
    rewrite !line_breaks_app, (line_breaks_none s Hs). reflexivity.
  - apply (proj1 (Forall_names_branch _ _)) in Hnames.
    cbn [item_text item_branches length].
    change (newline :: replicate (2 * (depth + 1)) space)
      with ([newline] ++ replicate (2 * (depth + 1)) space).
    rewrite !line_breaks_app, line_breaks_spaces.
    change (line_breaks [newline]) with 1%nat. cbn [Nat.add]. f_equal.
    by apply line_breaks_concat.
Qed.

Lemma line_breaks_line x depth :
  Forall (Forall (fun c => isspace c = false)) (names_of (AST.mk x)) ->
  line_breaks (line_text x depth) = length (nested x).
Proof.
  apply line_breaks_concat, Forall_forall. intros v _. apply line_breaks_item.
Qed.

(** X12. Whenever [str] returns a text for the AST of a successful parse,
    the text has one line feed for each nested branch, that is two for each
    split symbol consumed: no name literal brings a line feed of its own. *)
Theorem str_line_breaks utf8_names ascii_symbols stream a frames text :
  parse utf8_names ascii_symbols stream = Ok a ->
  AST_str frames a = Text text ->
  line_breaks text = branches a
  ∧ branches a
    = (2 * splits_consumed utf8_names ascii_symbols initial stream)%nat.
Proof.
  intros Hp [-> _]%AST_str_Text. split.
  - apply line_breaks_line.
    apply (parse_names_in utf8_names ascii_symbols _ stream a); [|done].
    apply Forall_forall. intros c _ Hcond. unfold admitted in Hcond.
    destruct (isspace c) eqn:Hsp; [|done].
    rewrite (space_not_symbol _ _ Hsp) in Hcond. by destruct utf8_names.
  - apply parse_Ok in Hp as (c & -> & _ & <-). apply branches_count.
Qed.

(** ** Programs put together *)

Lemma pop_while_snoc r d :
  pop_while (r ++ [d])
  = match pop_while r with
    | Ok stack => Ok (d :: stack)
    | Raise _ => if d =? -1 then Raise IndexError else Ok [d]
    end.
Proof.
  induction r as [|x r IH]; simpl; [done|].
  destruct (x =? -1); [done|]. by rewrite rev_unit.
Qed.

Lemma py_setitem_cons {A} (d : A) stack i v stack' :
  i < 0 -> py_setitem stack i v = Ok stack' ->
  py_setitem (d :: stack) i v = Ok (d :: stack').
Proof.
  unfold py_setitem, py_index. intros Hi. cbn [length].
  destruct (Z.ltb_spec i 0); [|lia].
  destruct (Z.leb_spec 0 (i + Z.of_nat (length stack))); [|done].
  destruct (Z.ltb_spec (i + Z.of_nat (length stack))
              (Z.of_nat (length stack))); [|lia].
  cbn [andb]. intros [= <-].
  destruct (Z.leb_spec 0 (i + Z.of_nat (S (length stack)))); [|lia].
  destruct (Z.ltb_spec (i + Z.of_nat (S (length stack)))
              (Z.of_nat (S (length stack)))); [|lia].
  cbn [andb]. do 2 f_equal.
  replace (Z.to_nat (i + Z.of_nat (S (length stack))))
    with (S (Z.to_nat (i + Z.of_nat (length stack)))) by lia.
  done.
Qed.

Lemma AST_push_wrap f x v q :
  AST.push (AST.mk (wrap f x)) v (dir f :: q)
  = let* x' := push_list x v q in Ok (AST.mk (wrap f x')).
Proof.
  unfold AST.push. cbn [AST.instructions]. rewrite push_wrap.
  by destruct (push_list x v q).
Qed.

Section Framed.
Variables (utf8_names ascii_symbols : bool).

#[local] Abbreviation step := (step utf8_names ascii_symbols).
#[local] Abbreviation run := (run utf8_names ascii_symbols).
#[local] Abbreviation parse := (parse utf8_names ascii_symbols).
#[local] Abbreviation symbols := (symbols ascii_symbols).

Lemma step_instruction_framed f x p i k buf i2 k2 index st' :
  step_instruction (mkState idle (AST.mk x) p i k buf) index = Ok st' ->
  exists so',
    step_instruction
      (mkState idle (AST.mk (wrap f x)) (dir f :: p) i2 k2 buf) index = Ok so'
    ∧ if state st' =? blank then closed_by f st' so' else framed f st' so'.
Proof.
  unfold step_instruction. destruct (instructions !! index) as [ins|]; [|done].
  fields. rewrite AST_push_wrap. unfold AST.push at 1. cbn [AST.instructions].
  destruct (push_list x (Instr ins) p) as [x1|e]; [|done]. cbn [bind].
  destruct (Instruction.eqb ins nil).
  { cbn [rev]. rewrite pop_while_snoc.
    destruct (pop_while (rev p)) as [stack|e].
    - destruct (py_setitem stack (-1) (-1)) as [stack'|e] eqn:Hset; [|done].
      cbn [bind]. intros [= <-].
      rewrite (py_setitem_cons (dir f) stack (-1) (-1) stack' ltac:(lia) Hset).
      cbn [bind].
      eexists. split; [done|]. by cbv.
    - intros [= <-]. destruct f as [gs|gs a]; cbn [dir].
      + eexists. split; [done|]. by cbv.
      + eexists. split; [done|]. by cbv. }
  destruct (Instruction.eqb ins split).
  - rewrite AST_push_wrap. unfold AST.push at 1. cbn [AST.instructions].
    destruct (push_list x1 (Branch []) p) as [x2|e]; [|done]. cbn [bind].
    rewrite AST_push_wrap. unfold AST.push at 1. cbn [AST.instructions].
    destruct (push_list x2 (Branch []) p) as [x3|e]; [|done]. cbn [bind].
    intros [= <-]. eexists. split; [done|]. by cbv.
  - intros [= <-]. eexists. split; [done|]. by cbv.
Qed.

Lemma step_raw_framed f x p i k buf c st' :
  step_raw utf8_names ascii_symbols (mkState raw (AST.mk x) p i k buf) c
  = Ok st' ->
  exists so',
    step_raw utf8_names ascii_symbols
      (mkState raw (AST.mk (wrap f x)) (dir f :: p) i k buf) c = Ok so'
    ∧ if state st' =? blank then closed_by f st' so' else framed f st' so'.
Proof.
  unfold step_raw. fields. rewrite !AST_push_wrap.
  unfold AST.push. cbn [AST.instructions].
  destruct (c =? pen ascii_symbols).
  - destruct (push_list x (Name buf) p) as [x1|e].
    + cbn [bind]. destruct (Instruction.args i >? k + 1).
      { intros [= <-]. eexists. split; [done|]. by cbv. }
      destruct (Instruction.args i =? k + 1); [|done].
      intros [= <-]. eexists. split; [done|]. by cbv.
    + cbn [bind]. destruct (Instruction.args i >? k + 1); [done|].
      by destruct (Instruction.args i =? k + 1).
  - destruct ((utf8_names && negb (isspace c)) || py_in c symbols).
    + intros [= <-]. eexists. split; [done|]. by cbv.
    + intros [= <-]. eexists. split; [done|]. by cbv.
Qed.

Lemma step_framed f st so c st' :
  framed f st so -> state st ≠ blank -> step st c = Ok st' ->
  exists so',
    step so c = Ok so'
    ∧ if state st' =? blank then closed_by f st' so' else framed f st' so'.
Proof.
  destruct st as [s [x] p i k buf], so as [s2 [x2] p2 i2 k2 buf2].
  intros (Hs & Hx & Hp & Hbuf & Hraw) Hblank. fields.
  cbn [AST.instructions] in Hx. subst s2 x2 p2 buf2.
  unfold step. fields.
  destruct (Z.eqb_spec s idle) as [->|Hidle].
  { destruct (py_find c symbols) as [index|].
    - apply step_instruction_framed.
    - intros [= <-]. eexists. split; [done|]. by cbv. }
  destruct (Z.eqb_spec s raw) as [->|Hnraw].
  { destruct (Hraw eq_refl) as [-> ->]. apply step_raw_framed. }
  destruct (Z.eqb_spec s blank) as [->|Hnblank]; [done|].
  intros [= <-]. eexists. split; [done|]. fields.
  destruct (Z.eqb_spec s blank); [done|]. by repeat split.
Qed.

Lemma run_framed f stream : forall st so st',
  framed f st so -> state st ≠ blank ->
  run st stream = Ok st' -> state st' = blank ->
  exists so', run so stream = Ok so' ∧ closed_by f st' so'.
Proof.
  induction stream as [|c stream IH]; intros st so st' Hf Hnb Hrun Hb.
  - injection Hrun as <-. done.
  - cbn [run] in Hrun |- *.
    destruct (step st c) as [st1|e] eqn:Hstep; [|done]. cbn [bind] in Hrun.
    destruct (step_framed _ _ _ _ _ Hf Hnb Hstep) as (so1 & -> & Hso1).
    cbn [bind].
    destruct (Z.eqb_spec (state st1) blank) as [Hst1|Hst1].
    + rewrite run_blank in Hrun by done.
      destruct (existsb (fun c => py_in c symbols) stream) eqn:Hjunk; [done|].
      injection Hrun as <-. exists so1. split; [|done].
      apply run_ignored.
      * destruct Hso1 as (-> & _). destruct f; auto.
      * apply Forall_forall. intros c' Hc'.
        destruct (py_in c' symbols) eqn:Hin; [|done].
        assert (existsb (fun c => py_in c symbols) stream = true)
          as Habs by (apply existsb_exists; exists c';
                      split; [by apply list_elem_of_In|done]).
        congruence.
    + by eapply IH.
Qed.

(** No name is being collected outside the [raw] state. *)
Lemma step_name_stack st c st' :
  step st c = Ok st' ->
  state st = raw \/ name_stack st = [] ->
  state st' = raw \/ name_stack st' = [].
Proof.
  unfold step. destruct (Z.eqb_spec (state st) idle) as [Hidle|_].
  { intros Hstep [Hraw|Hbuf]; [by rewrite Hidle in Hraw|].
    destruct (py_find c symbols) as [index|]; [|injection Hstep as <-; auto].
    unfold step_instruction in Hstep.
    destruct (instructions !! index) as [ins|]; [|done].
    destruct (AST.push (ast st) (Instr ins) (stack_ptr st)) as [a1|e]; [|done].
    cbn [bind] in Hstep. destruct (Instruction.eqb ins nil).
    { destruct (pop_while (rev (stack_ptr st))) as [stack|e].
      - destruct (py_setitem stack (-1) (-1)); [|done].
        injection Hstep as <-. auto.
      - injection Hstep as <-. auto. }
    destruct (Instruction.eqb ins split); [|injection Hstep as <-; auto].
    destruct (AST.push a1 (Branch []) (stack_ptr st)) as [a2|e]; [|done].
    cbn [bind] in Hstep.
    destruct (AST.push a2 (Branch []) (stack_ptr st)) as [a3|e]; [|done].
    injection Hstep as <-. auto. }
  destruct (Z.eqb_spec (state st) raw) as [Hraw|Hnraw].
  { unfold step_raw. intros Hstep _.
    destruct (c =? pen ascii_symbols).
    - destruct (Instruction.args (instruction st) >? name_count st + 1).
      { destruct (AST.push (ast st) (Name (name_stack st)) (stack_ptr st));
          [|done].
        injection Hstep as <-. auto. }
      destruct (Instruction.args (instruction st) =? name_count st + 1);
        [|done].
      destruct (AST.push (ast st) (Name (name_stack st)) (stack_ptr st));
        [|done].
      injection Hstep as <-. auto.
    - destruct ((utf8_names && negb (isspace c)) || py_in c symbols);
        injection Hstep as <-; auto. }
  destruct (state st =? blank).
  - destruct (py_in c symbols); [done|]. intros [= <-]. auto.
  - intros [= <-]. auto.
Qed.

Lemma run_name_stack stream : forall st st',
  run st stream = Ok st' ->
  state st = raw \/ name_stack st = [] ->
  state st' = raw \/ name_stack st' = [].
Proof.
  induction stream as [|c stream IH]; intros st st' Hrun Hst.
  - by injection Hrun as <-.
  - cbn [run] in Hrun. destruct (step st c) as [st1|e] eqn:Hstep; [|done].
    eapply IH; [exact Hrun|]. by eapply step_name_stack.
Qed.

(** The scan of a complete program inside a branch of a split. *)
Lemma parse_framed f stream a so :
  parse stream = Ok a -> framed f initial so ->
  exists so',
    run so stream = Ok so'
    ∧ state so' = match f with FFirst _ => idle | FSecond _ _ => blank end
    ∧ AST.instructions (ast so') = wrap f (AST.instructions a)
    ∧ stack_ptr so' = match f with FFirst _ => [-1] | FSecond _ _ => [] end
    ∧ name_stack so' = [].
Proof.
  intros (st & Hrun & Hst & <-)%parse_Ok_blank Hf.
  destruct (run_framed f stream initial so st Hf ltac:(done) Hrun Hst)
    as (so' & Hso' & Hs & Hx & Hp & Hbuf).
  exists so'. repeat split; try done.
  rewrite Hbuf.
  destruct (run_name_stack _ _ _ Hrun ltac:(by right)) as [Hraw|Hnil];
    [|done]. by rewrite Hst in Hraw.
Qed.

(** X14. Two complete programs after a split symbol make one: when
    [parse] succeeds on each of two streams, it succeeds on the split
    symbol followed by the one and by the other, and the AST is the split
    instruction followed by the AST of the first as one branch and the AST
    of the second as the next. *)
Theorem parse_split_of stream1 stream2 a1 a2 :
  parse stream1 = Ok a1 -> parse stream2 = Ok a2 ->
  parse (unlock ascii_symbols :: stream1 ++ stream2)
  = Ok (AST.mk [Instr split; Branch (AST.instructions a1);
                Branch (AST.instructions a2)]).
Proof.
  intros H1 H2.
  destruct (parse_Ok _ _ _ _ H1) as (c1 & Ha1 & _).
  pose proof (step_split_eq utf8_names ascii_symbols [] [] nil 0) as Hsplit.
  change (mkState idle (AST.mk (plug [] (render_groups []))) (path []) nil 0 [])
    with initial in Hsplit.
  destruct (parse_framed (FFirst []) stream1 a1
              (mkState idle (AST.mk (plug [FFirst []] []))
                 (path [FFirst []]) split 0 []) H1)
    as ([s [x] p i k buf] & Hrun1 & Hs & Hx & Hp & Hbuf).
  { by repeat split. }
  fields. cbn [AST.instructions] in Hx. subst s x p buf.
  destruct (parse_framed (FSecond [] c1) stream2 a2
              (mkState idle (AST.mk (wrap (FFirst []) (AST.instructions a1)))
                 [-1] i k []) H2)
    as ([s [x] p i' k' buf] & Hrun2 & Hs & Hx & _).
  { repeat split; try done. cbn [ast AST.instructions wrap initial AST.init].
    by rewrite Ha1. }
  fields. cbn [AST.instructions] in Hx. subst s x.
  unfold parse. cbn [run]. rewrite Hsplit. cbn [bind].
  rewrite run_app, Hrun1. cbn [bind]. rewrite Hrun2. cbn [bind]. fields.
  change (blank =? idle) with false. change (blank =? raw) with false.
  by rewrite Ha1.
Qed.

(** *** After an instruction and its names *)

Lemma py_index_prefix n len i k :
  i < 0 -> py_index len i = Some k -> py_index (n + len) i = Some (n + k)%nat.
Proof.
  unfold py_index. intros Hi. destruct (Z.ltb_spec i 0); [|lia].
  destruct (Z.leb_spec 0 (i + Z.of_nat len)); [|done].
  destruct (Z.ltb_spec (i + Z.of_nat len) (Z.of_nat len)); [|done].
  cbn [andb]. intros [= <-].
  destruct (Z.leb_spec 0 (i + Z.of_nat (n + len))); [|lia].
  destruct (Z.ltb_spec (i + Z.of_nat (n + len)) (Z.of_nat (n + len))); [|lia].
  cbn [andb]. f_equal. lia.
Qed.

Lemma push_list_prefix pre x v indices x' :
  Forall (fun d => d < 0) indices ->
  push_list x v indices = Ok x' ->
  push_list (pre ++ x) v indices = Ok (pre ++ x').
Proof.
  destruct indices as [|i rest]; simpl.
  - intros _ [= <-]. by rewrite app_assoc.
  - intros [Hi _]%Forall_cons.
    destruct (py_index (length x) i) as [k|] eqn:Hk; [|done].
    rewrite length_app, (py_index_prefix _ _ _ _ Hi Hk).
    rewrite lookup_app_r by lia.
    replace (length pre + k - length pre)%nat with k by lia.
    destruct (x !! k) as [[ins|s|b]|]; try done.
    destruct (push_list b v rest) as [b'|e]; [|done].
    intros [= <-]. simpl. by rewrite insert_app_r.
Qed.

Lemma AST_push_prefix pre x v indices :
  Forall (fun d => d < 0) indices ->
  forall x', push_list x v indices = Ok x' ->
  AST.push (AST.mk (pre ++ x)) v indices = Ok (AST.mk (pre ++ x')).
Proof.
  intros Hneg x' Hx. unfold AST.push. cbn [AST.instructions].
  by rewrite (push_list_prefix _ _ _ _ _ Hneg Hx).
Qed.

Lemma pop_while_negative r : forall stack,
  pop_while r = Ok stack -> Forall (fun d => d < 0) r ->
  Forall (fun d => d < 0) stack.
Proof.
  induction r as [|d r IH]; intros stack; cbn [pop_while]; [done|].
  destruct (d =? -1).
  - intros H [_ Hr]%Forall_cons. by apply IH.
  - intros [= <-] Hr. change (rev r ++ [d]) with (rev (d :: r)).
    by apply Forall_rev.
Qed.

Lemma py_setitem_negative stack stack' :
  py_setitem stack (-1) (-1) = Ok stack' ->
  Forall (fun d => d < 0) stack -> Forall (fun d => d < 0) stack'.
Proof.
  unfold py_setitem. destruct (py_index (length stack) (-1)) as [k|]; [|done].
  intros [= <-] Hs. by apply Forall_insert.
Qed.

Lemma step_instruction_prefixed pre x p i k buf i2 k2 index st' :
  Forall (fun d => d < 0) p ->
  step_instruction (mkState idle (AST.mk x) p i k buf) index = Ok st' ->
  exists so',
    step_instruction (mkState idle (AST.mk (pre ++ x)) p i2 k2 buf) index
    = Ok so'
    ∧ prefixed pre st' so'.
Proof.
  intros Hp. unfold step_instruction.
  destruct (instructions !! index) as [ins|]; [|done]. fields.
  unfold AST.push at 1. cbn [AST.instructions].
  destruct (push_list x (Instr ins) p) as [x1|e] eqn:H1; [|done].
  rewrite (AST_push_prefix _ _ _ _ Hp _ H1). cbn [bind].
  destruct (Instruction.eqb ins nil).
  { destruct (pop_while (rev p)) as [stack|e] eqn:Hpop.
    - destruct (py_setitem stack (-1) (-1)) as [stack'|e] eqn:Hset; [|done].
      cbn [bind]. intros [= <-]. eexists. split; [done|].
      repeat split; try done. fields.
      eapply py_setitem_negative; [done|].
      eapply pop_while_negative; [done|]. by apply Forall_rev.
    - intros [= <-]. eexists. split; [done|]. by repeat split. }
  destruct (Instruction.eqb ins split).
  - unfold AST.push at 1. cbn [AST.instructions].
    destruct (push_list x1 (Branch []) p) as [x2|e] eqn:H2; [|done].
    rewrite (AST_push_prefix _ _ _ _ Hp _ H2). cbn [bind].
    unfold AST.push at 1. cbn [AST.instructions].
    destruct (push_list x2 (Branch []) p) as [x3|e] eqn:H3; [|done].
    rewrite (AST_push_prefix _ _ _ _ Hp _ H3). cbn [bind].
    intros [= <-]. eexists. split; [done|].
    repeat split; try done. fields. apply Forall_app. split; [done|].
    by constructor.
  - intros [= <-]. eexists. split; [done|]. by repeat split.
Qed.

Lemma step_raw_prefixed pre x p i k buf c st' :
  Forall (fun d => d < 0) p ->
  step_raw utf8_names ascii_symbols (mkState raw (AST.mk x) p i k buf) c
  = Ok st' ->
  exists so',
    step_raw utf8_names ascii_symbols
      (mkState raw (AST.mk (pre ++ x)) p i k buf) c = Ok so'
    ∧ prefixed pre st' so'.
Proof.
  intros Hp. unfold step_raw. fields.
  unfold AST.push at 1 2. cbn [AST.instructions].
  destruct (c =? pen ascii_symbols).
  - destruct (push_list x (Name buf) p) as [x1|e] eqn:H1.
    + rewrite (AST_push_prefix _ _ _ _ Hp _ H1). cbn [bind].
      destruct (Instruction.args i >? k + 1).
      { intros [= <-]. eexists. split; [done|]. by repeat split. }
      destruct (Instruction.args i =? k + 1); [|done].
      intros [= <-]. eexists. split; [done|]. by repeat split.
    + cbn [bind]. destruct (Instruction.args i >? k + 1); [done|].
      by destruct (Instruction.args i =? k + 1).
  - destruct ((utf8_names && negb (isspace c)) || py_in c symbols).
    + intros [= <-]. eexists. split; [done|]. by repeat split.
    + intros [= <-]. eexists. split; [done|]. by repeat split.
Qed.

Lemma step_prefixed pre st so c st' :
  prefixed pre st so -> step st c = Ok st' ->
  exists so', step so c = Ok so' ∧ prefixed pre st' so'.
Proof.
  destruct st as [s [x] p i k buf], so as [s2 [x2] p2 i2 k2 buf2].
  intros (Hs & Hx & Hp & Hneg & Hbuf & Hraw). fields.
  cbn [AST.instructions] in Hx. subst s2 x2 p2 buf2.
  unfold step. fields.
  destruct (Z.eqb_spec s idle) as [->|Hidle].
  { destruct (py_find c symbols) as [index|].
    - by apply step_instruction_prefixed.
    - intros [= <-]. eexists. split; [done|]. by repeat split. }
  destruct (Z.eqb_spec s raw) as [->|Hnraw].
  { destruct (Hraw eq_refl) as [-> ->]. by apply step_raw_prefixed. }
  destruct (s =? blank).
  - destruct (py_in c symbols); [done|].
    intros [= <-]. eexists. split; [done|]. by repeat split.
  - intros [= <-]. eexists. split; [done|]. by repeat split.
Qed.

Lemma run_prefixed pre stream : forall st so st',
  prefixed pre st so -> run st stream = Ok st' ->
  exists so', run so stream = Ok so' ∧ prefixed pre st' so'.
Proof.
  induction stream as [|c stream IH]; intros st so st' Hpre Hrun.
  - injection Hrun as <-. by exists so.
  - cbn [run] in Hrun |- *.
    destruct (step st c) as [st1|e] eqn:Hstep; [|done]. cbn [bind] in Hrun.
    destruct (step_prefixed _ _ _ _ _ Hpre Hstep) as (so1 & -> & Hso1).
    cbn [bind]. by eapply IH.
Qed.

(** The characters of a name, then the delimiter. *)
Lemma run_name_chars n : forall x i k buf,
  forallb (fun c => negb (c =? pen ascii_symbols)) n = true ->
  run (mkState raw x [] i k buf) n
  = Ok (mkState raw x [] i k
          (buf ++ List.filter (admitted utf8_names ascii_symbols) n)).
Proof.
  induction n as [|c n IH]; intros x i k buf Hn.
  - cbn [List.filter]. by rewrite app_nil_r.
  - cbn [forallb] in Hn. apply andb_prop in Hn as [Hc Hn].
    cbn [run List.filter]. unfold step, step_raw. fields.
    change (raw =? idle) with false. change (raw =? raw) with true.
    destruct (c =? pen ascii_symbols); [done|]. unfold admitted.
    destruct ((utf8_names && negb (isspace c)) || py_in c symbols);
      cbn [bind]; rewrite IH by done; [|done].
    by rewrite <- app_assoc.
Qed.

Lemma run_names ns : forall n x i k rest,
  Z.of_nat (length ns) + k + 1 = Instruction.args i ->
  forallb (fun c => negb (c =? pen ascii_symbols)) n = true ->
  Forall (fun n => forallb (fun c => negb (c =? pen ascii_symbols)) n = true)
         ns ->
  run (mkState raw (AST.mk x) [] i k [])
      ((n ++ [pen ascii_symbols])
       ++ concat (map (fun n => n ++ [pen ascii_symbols]) ns) ++ rest)
  = run (mkState idle
           (AST.mk (x ++ map
                      (fun n => Name (List.filter
                                        (admitted utf8_names ascii_symbols) n))
                      (n :: ns)))
           [] i (Instruction.args i) [])
        rest.
Proof.
  induction ns as [|n' ns IH]; intros n x i k rest Hk Hn Hns.
  - cbn [map concat app length] in *. rewrite !run_app, run_name_chars by done.
    cbn [bind run app]. unfold step, step_raw. fields.
    change (raw =? idle) with false. change (raw =? raw) with true.
    rewrite Z.eqb_refl.
    destruct (Z.gtb_spec (Instruction.args i) (k + 1)); [lia|].
    destruct (Z.eqb_spec (Instruction.args i) (k + 1)); [|lia].
    unfold AST.push. cbn [AST.instructions push_list bind].
    by replace (k + 1) with (Instruction.args i) by lia.
  - apply Forall_cons in Hns as [Hn' Hns].
    cbn [map concat]. rewrite !run_app, run_name_chars by done.
    cbn [bind run app]. unfold step, step_raw. fields.
    change (raw =? idle) with false. change (raw =? raw) with true.
    rewrite Z.eqb_refl.
    destruct (Z.gtb_spec (Instruction.args i) (k + 1));
      [|cbn [length] in Hk; lia].
    unfold AST.push. cbn [AST.instructions push_list bind].
    rewrite <- (app_assoc (n' ++ [pen ascii_symbols])).
    rewrite (IH n' _ i (k + 1) rest); [|cbn [length] in Hk; lia|done|done].
    cbn [map]. by rewrite <- app_assoc.
Qed.

(** X15. An instruction that takes names, its names each closed by the
    delimiter, and then a complete program make a program: the AST is the
    instruction, one name literal for each name, made of the characters of
    the name that the name mode admits, and then the AST of the program. *)
Theorem parse_instruction_of c index i ns stream a :
  py_find c symbols = Some index -> instructions !! index = Some i ->
  0 < Instruction.args i -> Z.of_nat (length ns) = Instruction.args i ->
  Forall (fun n => forallb (fun c => negb (c =? pen ascii_symbols)) n = true)
         ns ->
  parse stream = Ok a ->
  parse (c :: concat (map (fun n => n ++ [pen ascii_symbols]) ns) ++ stream)
  = Ok (AST.mk
          (Instr i
           :: map (fun n => Name (List.filter
                                    (admitted utf8_names ascii_symbols) n)) ns
           ++ AST.instructions a)).
Proof.
  intros Hc Hi Hargs Hlen Hns (st & Hrun & Hst & <-)%parse_Ok_blank.
  assert (Instruction.eqb i nil = false ∧ Instruction.eqb i split = false)
    as [Hnil Hsplit].
  { rewrite instructions_lookup in Hi.
    do 6 (destruct index as [|index];
          [injection Hi as <-; by vm_compute in Hargs |- *|]).
    done. }
  destruct ns as [|n ns]; [simpl in Hlen; lia|].
  apply Forall_cons in Hns as [Hn Hns].
  unfold parse. cbn [run map concat]. unfold step at 1. fields.
  change (state initial =? idle) with true. rewrite Hc.
  unfold step_instruction. rewrite Hi. fields.
  unfold AST.push. cbn [AST.instructions AST.init initial ast stack_ptr
                        push_list bind app].
  rewrite Hnil, Hsplit. cbn [bind name_stack initial].
  rewrite <- (app_assoc (n ++ [pen ascii_symbols])), run_names; [|cbn [length] in Hlen; lia|done|done].
  destruct (run_prefixed
              ([Instr i]
               ++ map (fun n => Name (List.filter
                                        (admitted utf8_names ascii_symbols) n))
                    (n :: ns))
              stream initial
              (mkState idle
                 (AST.mk ([Instr i]
                          ++ map (fun n =>
                                    Name (List.filter
                                            (admitted utf8_names ascii_symbols)
                                            n)) (n :: ns)))
                 [] i (Instruction.args i) []) st)
    as ([s [x] p i' k' buf] & -> & Hs & Hx & _); [|done|].
  { repeat split; try done. cbn [ast AST.instructions initial AST.init].
    by rewrite app_nil_r. }
  cbn [bind]. fields. cbn [AST.instructions] in Hx. subst s x. rewrite Hst.
  change (blank =? idle) with false. change (blank =? raw) with false.
  done.
Qed.
(** *** Programs nested beyond the frames of [str] *)





End Framed.

(** ** The further properties at concrete streams *)

Lemma complete_program_extended_witness :
  parse false true (str "SNN" ++ str " x N") = Raise InvalidSymbol.
Proof.
  apply (complete_program_extended false true (str "SNN")
           (AST.mk [Instr split; Branch [Instr nil]; Branch [Instr nil]])
           (str " x N")).
  reflexivity.
Defined.

Lemma truncated_program_witness :
  parse false true (str "SN") = Raise UnexpectedEOF.
Proof.
  apply (truncated_program false true (str "SN") (str "N")
           (AST.mk [Instr split; Branch [Instr nil]; Branch [Instr nil]]));
    reflexivity.
Defined.

Lemma name_mode_irrelevant_witness :
  parse true true (str "K NP SP N") = parse false true (str "K NP SP N").
Proof.
  apply (name_mode_irrelevant true (str "K NP SP N")).
  repeat (constructor; [reflexivity|]). constructor.
Defined.

Lemma no_symbol_no_program_witness :
  parse false true (str "abc") = Raise UnexpectedEOF.
Proof.
  apply (no_symbol_no_program false true (str "abc")).
  repeat (constructor; [reflexivity|]). constructor.
Defined.

Lemma branches_terminated_witness :
  Forall (fun b => nil_last b && ends b = true)
    (all_branches
       (AST.mk [Instr split; Branch [Instr nil]; Branch [Instr nil]]))
  ∧ count_instr nil
      (AST.mk [Instr split; Branch [Instr nil]; Branch [Instr nil]])
    = 2%nat.
Proof. apply (branches_terminated false true (str "SNN")). reflexivity. Defined.

Lemma names_from_stream_witness :
  Forall (Forall (fun c => c ∈ str "Ka PbPN" ∧ isspace c = false))
    (names_of
       (AST.mk [Instr decrypt; Name (str "a"); Name (str "b"); Instr nil])).
Proof. apply (names_from_stream true true (str "Ka PbPN")). reflexivity. Defined.

Lemma str_parsed_back_witness :
  parse true false
    [0x1F513; 32; 10; 32; 32; 0x1F512; 32; 10; 32; 32; 0x1F512; 32]
  = Ok (AST.mk [Instr split; Branch [Instr nil]; Branch [Instr nil]]).
Proof.
  apply (str_parsed_back false true (str "SNN")
           (AST.mk [Instr split; Branch [Instr nil]; Branch [Instr nil]])
           2%nat); reflexivity.
Defined.

Lemma str_line_breaks_witness :
  line_breaks
    [0x1F513; 32; 10; 32; 32; 0x1F58B; 32; 39; 120; 39; 32; 0x1F512; 32;
     10; 32; 32; 0x1F512; 32]
  = 2%nat
  ∧ branches (AST.mk [Instr split;
                      Branch [Instr name; Name (str "x"); Instr nil];
                      Branch [Instr nil]])
    = 2%nat.
Proof.
  apply (str_line_breaks true true (str "SPxPNN")
           (AST.mk [Instr split;
                    Branch [Instr name; Name (str "x"); Instr nil];
                    Branch [Instr nil]])
           2%nat); reflexivity.
Defined.

Lemma parse_split_of_witness :
  parse false true (83 :: str "N" ++ str "SNN")
  = Ok (AST.mk [Instr split; Branch [Instr nil];
                Branch [Instr split; Branch [Instr nil]; Branch [Instr nil]]]).
Proof.
  apply (parse_split_of false true (str "N") (str "SNN") (AST.mk [Instr nil])
           (AST.mk [Instr split; Branch [Instr nil]; Branch [Instr nil]]));
    reflexivity.
Defined.

Lemma parse_instruction_of_witness :
  parse true true
    (75 :: concat (map (fun n => n ++ [pen true]) [str "a b"; str "c"])
        ++ str "N")
  = Ok (AST.mk [Instr decrypt; Name (str "ab"); Name (str "c"); Instr nil]).
Proof.
  apply (parse_instruction_of true true 75 2%nat decrypt [str "a b"; str "c"]
           (str "N") (AST.mk [Instr nil])); try reflexivity.
  repeat (constructor; [reflexivity|]). constructor.
Defined.
